(** * Validation and rule-consistency engine: a shallow embedding

    The development follows the two TypeScript modules that carry the
    logic of the application:

    - [validation.ts]: the row validators and [validateAll];
    - the rule store ([useRulesStore]): [validateRule] and the repository
      operations [addRule], [updateRule], [deleteRule], [clearRules],
      [importRules], [exportRules].

    The host language is modelled first (numbers with [NaN], primitive
    values and their coercions, the string methods the code calls), then
    the two modules, then the properties. *)

From Stdlib Require Import Ascii String Sorting.Sorted.
From stdpp Require Import base decidable option numbers strings list sorting gmap pretty.

(** ** The host: numbers, values, strings *)

Module JS.

(** A [number]: a finite value, one of the two infinities, or NaN.
    Finite doubles are rationals; the code only compares numbers and
    tests them for truthiness, and on finite values both agree with the
    rationals.  The two zeros of the host are one value here: they are
    equal under every comparison the code makes. *)
Inductive number : Type :=
| NaN
| NegInfinity
| Fin (q : Qcanon.Qc)
| Infinity.

#[global] Instance number_eq_dec : EqDecision number.
Proof. solve_decision. Defined.

Definition of_Z (z : Z) : number := Fin (Qc_of_Z z).
Definition of_nat (n : nat) : number := of_Z (Z.of_nat n).

(** [a < b] *)
Definition lt (a b : number) : bool :=
  match a, b with
  | NaN, _ | _, NaN => false
  | NegInfinity, NegInfinity => false
  | NegInfinity, _ => true
  | Fin _, NegInfinity => false
  | Fin p, Fin q => bool_decide (Qcanon.Qclt p q)
  | Fin _, Infinity => true
  | Infinity, _ => false
  end.

(** [a > b] *)
Definition gt (a b : number) : bool := lt b a.

(** [a >= b]: false as soon as one side is NaN. *)
Definition ge (a b : number) : bool :=
  match a, b with
  | NaN, _ | _, NaN => false
  | _, _ => negb (lt a b)
  end.

(** [a === b] on numbers: NaN differs from everything, itself included. *)
Definition strict_eq (a b : number) : bool :=
  match a, b with
  | NaN, _ | _, NaN => false
  | _, _ => bool_decide (a = b)
  end.

(** [isNaN(a)] on a number. *)
Definition isNaN (a : number) : bool :=
  match a with NaN => true | _ => false end.

(** Truthiness of a number: everything but zero and NaN. *)
Definition truthy_number (a : number) : bool :=
  match a with
  | NaN => false
  | Fin q => negb (bool_decide (q = Qc_of_Z 0))
  | NegInfinity | Infinity => true
  end.

(** Strings are sequences of code units below 256; the white space of
    that range is what [trim] strips (TAB, LF, VT, FF, CR, SP, NBSP). *)
Definition is_white_space (c : ascii) : bool :=
  match nat_of_ascii c with
  | 9 | 10 | 11 | 12 | 13 | 32 | 160 => true
  | _ => false
  end.

Definition is_empty (s : string) : bool :=
  match s with EmptyString => true | String _ _ => false end.

Fixpoint trimStart (s : string) : string :=
  match s with
  | EmptyString => EmptyString
  | String c s' => if is_white_space c then trimStart s' else s
  end.

Fixpoint trimEnd (s : string) : string :=
  match s with
  | EmptyString => EmptyString
  | String c s' =>
      let t := trimEnd s' in
      if is_white_space c && is_empty t then EmptyString else String c t
  end.

(** [s.trim()] *)
Definition trim (s : string) : string := trimEnd (trimStart s).

(** [s.split(/[...]/)] for a separator that is a single character out of
    a class: the result always has at least one field. *)
Fixpoint split (sep : ascii → bool) (s : string) : list string :=
  match s with
  | EmptyString => [EmptyString]
  | String c s' =>
      if sep c then EmptyString :: split sep s'
      else match split sep s' with
           | field :: fields => String c field :: fields
           | [] => [String c EmptyString]
           end
  end.

(** The class [/[,;]/]. *)
Definition comma_or_semicolon (c : ascii) : bool :=
  bool_decide (c = ","%char) || bool_decide (c = ";"%char).

(** [s.includes(c)] for a one-character needle. *)
Fixpoint includes (c : ascii) (s : string) : bool :=
  match s with
  | EmptyString => false
  | String d s' => bool_decide (d = c) || includes c s'
  end.

(** [s.indexOf(c)]; [None] stands for -1. *)
Fixpoint indexOf (c : ascii) (s : string) : option nat :=
  match s with
  | EmptyString => None
  | String d s' =>
      if bool_decide (d = c) then Some 0 else S <$> indexOf c s'
  end.

(** [s.lastIndexOf(c)]; [None] stands for -1. *)
Fixpoint lastIndexOf (c : ascii) (s : string) : option nat :=
  match s with
  | EmptyString => None
  | String d s' =>
      match lastIndexOf c s' with
      | Some i => Some (S i)
      | None => if bool_decide (d = c) then Some 0 else None
      end
  end.

(** [s.substring(a, b)]: the arguments are swapped when [a > b], and the
    range is cut at the end of the string. *)
Definition substring (a b : nat) (s : string) : string :=
  String.substring (Nat.min a b) (Nat.max a b - Nat.min a b) s.

(** [xs.join(sep)] *)
Definition join (sep : string) (xs : list string) : string :=
  String.concat sep xs.

(** The values a row cell or an identifier can hold: the primitive
    values, and the members a plain object inherits from
    [Object.prototype] (its functions, and under [__proto__] the prototype
    itself), each known by the name it is found under. *)
Inductive value : Type :=
| VUndefined
| VNull
| VBool (b : bool)
| VNumber (n : number)
| VString (s : string)
| VBuiltin (name : string).

#[global] Instance value_eq_dec : EqDecision value.
Proof. solve_decision. Defined.

#[global] Instance value_inhabited : Inhabited value := populate VUndefined.

(** What the host supplies and the code calls as a black box: the
    regular-expression compiler, the JSON parser, and the conversions
    between strings and numbers. *)
Class Host : Type := {
  (** [new RegExp(s)] returns rather than throws *)
  RegExp_compiles : string → bool;
  (** [JSON.parse(s)] returns rather than throws *)
  JSON_parses : string → bool;
  (** [Number(s)] on a string *)
  StringToNumber : string → number;
  (** [String(n)] on a number *)
  NumberToString : number → string;
  (** [String(Object.prototype[name])]: the text of a built-in function,
      which the host is free to lay out *)
  BuiltinToString : string → string
}.

Section Coercions.
Context `{Host}.

(** Truthiness, as [if (v)] and [!v] and [v || d] test it. *)
Definition truthy (v : value) : bool :=
  match v with
  | VUndefined | VNull => false
  | VBool b => b
  | VNumber n => truthy_number n
  | VString s => negb (is_empty s)
  | VBuiltin _ => true
  end.

(** [String(v)] *)
Definition String_ (v : value) : string :=
  match v with
  | VUndefined => "undefined"
  | VNull => "null"
  | VBool true => "true"
  | VBool false => "false"
  | VNumber n => NumberToString n
  | VString s => s
  | VBuiltin name => BuiltinToString name
  end.

(** [Number(v)]; an object is converted through its text, which for the
    inherited members is no numeral. *)
Definition Number_ (v : value) : number :=
  match v with
  | VUndefined => NaN
  | VNull => of_Z 0
  | VBool true => of_Z 1
  | VBool false => of_Z 0
  | VNumber n => n
  | VString s => StringToNumber s
  | VBuiltin _ => NaN
  end.

(** [v || d] *)
Definition or_else (v d : value) : value := if truthy v then v else d.
End Coercions.

End JS.

(** ** validation.ts *)

Module Validation.
Import JS.

(** Sets of values compare their members with SameValueZero, which on the
    values above is equality; [gset] needs them countable. *)
#[global] Instance number_countable : Countable number.
Proof.
  refine (inj_countable'
    (λ n, match n with
          | NaN => inl 0 | NegInfinity => inl 1 | Infinity => inl 2
          | Fin q => inr q
          end)
    (λ c, match c with
          | inl 0 => NaN | inl 1 => NegInfinity | inl _ => Infinity
          | inr q => Fin q
          end) _).
  by intros [].
Defined.

#[global] Instance value_countable : Countable value.
Proof.
  refine (inj_countable'
    (λ v, match v with
          | VUndefined => inl (inl None) | VNull => inl (inl (Some tt))
          | VBool b => inl (inr b)
          | VNumber n => inr (inl n) | VString s => inr (inr (inl s))
          | VBuiltin name => inr (inr (inr name))
          end)
    (λ c, match c with
          | inl (inl None) => VUndefined | inl (inl (Some _)) => VNull
          | inl (inr b) => VBool b
          | inr (inl n) => VNumber n | inr (inr (inl s)) => VString s
          | inr (inr (inr name)) => VBuiltin name
          end) _).
  by intros [].
Defined.

Inductive Severity : Type := error | warning.

#[global] Instance Severity_eq_dec : EqDecision Severity.
Proof. solve_decision. Defined.

(** The string a [Severity] is in the source; [summary] is keyed by it. *)
Definition Severity_tag (t : Severity) : string :=
  match t with error => "error" | warning => "warning" end.

Record ValidationError : Type := mkError {
  row : nat;
  column : string;
  message : string;
  type : Severity
}.

#[global] Instance ValidationError_eq_dec : EqDecision ValidationError.
Proof. solve_decision. Defined.

Record ValidationResult : Type := mkResult {
  errors : list ValidationError;
  summary : gmap string nat
}.

(** [type Row = Record<string, any>]: a row is a plain object, as the
    parsers and the page build it, given by the map of its own keys; what
    it inherits from [Object.prototype] is the same for every row. *)
Abbreviation Row := (gmap string value).

(** The names a plain object inherits from [Object.prototype]. *)
Definition Object_prototype : list string :=
  ["constructor"; "__defineGetter__"; "__defineSetter__"; "hasOwnProperty";
   "__lookupGetter__"; "__lookupSetter__"; "isPrototypeOf"; "propertyIsEnumerable";
   "toString"; "valueOf"; "__proto__"; "toLocaleString"].

Definition inherited (col : string) : bool := bool_decide (col ∈ Object_prototype).

(** [row[col]]: the row's own value, else the inherited member, else
    [undefined]. *)
Definition get (r : Row) (col : string) : value :=
  match r !! col with
  | Some v => v
  | None => if inherited col then VBuiltin col else VUndefined
  end.

(** [col in row]: an own key or an inherited one. *)
Definition has_key (col : string) (r : Row) : bool :=
  bool_decide (is_Some (r !! col)) || inherited col.

(** [xs.forEach((x, i) => ...)], the callback's writes to the variables it
    closes over threaded through as a state; [forEach_from i] is the loop
    from index [i] on. *)
Fixpoint forEach_from {A St : Type} (i : nat) (body : A → nat → St → St)
    (xs : list A) (st : St) : St :=
  match xs with
  | [] => st
  | x :: xs' => forEach_from (S i) body xs' (body x i st)
  end.

Definition forEach {A St : Type} (body : A → nat → St → St) (xs : list A) (st : St)
    : St :=
  forEach_from 0 body xs st.

(** [errors.push(e)] *)
Definition push {A : Type} (xs : list A) (x : A) : list A := xs ++ [x].

Section Validators.
Context `{Host}.

Definition validateRequiredColumns (rows : list Row) (required : list string)
    : list ValidationError :=
  match rows with
  | [] => []
  | first :: _ =>
      let missing := filter (λ col, has_key col first = false) required in
      match missing with
      | [] => []
      | _ => (λ col, mkError 0 col ("Missing required column: " +:+ col) error) <$> missing
      end
  end.

Definition validateDuplicateIDs (rows : list Row) (idCol : string)
    : list ValidationError :=
  snd (forEach
    (λ row i '(seen, errors),
       let id := get row idCol in
       if bool_decide (id ∈ seen)
       then (seen, push errors (mkError (i + 1) idCol ("Duplicate ID: " +:+ String_ id) error))
       else ({[ id ]} ∪ seen, errors))
    rows ((∅ : gset value), [])).

Definition validateNumericList (rows : list Row) (col : string)
    : list ValidationError :=
  forEach
    (λ row i errors,
       if truthy (get row col) then
         let vals := trim <$> split comma_or_semicolon (String_ (get row col)) in
         if existsb (λ v, negb (is_empty v) && isNaN (StringToNumber v)) vals
         then push errors (mkError (i + 1) col ("Malformed numeric list in " +:+ col) error)
         else errors
       else errors)
    rows [].

Definition validateRange (rows : list Row) (col : string) (min max : number)
    : list ValidationError :=
  forEach
    (λ row i errors,
       let val := Number_ (get row col) in
       if isNaN val || lt val min || gt val max
       then push errors
              (mkError (i + 1) col
                 ("Value out of range (" +:+ NumberToString min +:+ "-" +:+
                  NumberToString max +:+ ") in " +:+ col) error)
       else errors)
    rows [].

(** The string [validateJSON] hands to [JSON.parse]: the cell as a string,
    cut to [substring(indexOf('{'), lastIndexOf('}') + 1)] when it holds
    both braces. *)
Definition json_text (v : value) : string :=
  let jsonStr := String_ v in
  if includes "{" jsonStr && includes "}" jsonStr then
    match indexOf "{" jsonStr, lastIndexOf "}" jsonStr with
    | Some start, Some last => substring start (last + 1) jsonStr
    | _, _ => jsonStr
    end
  else jsonStr.

Definition validateJSON (rows : list Row) (col : string) : list ValidationError :=
  match rows with
  | [] => []
  | first :: _ =>
      if negb (has_key col first) then []
      else
        forEach
          (λ row i errors,
             if truthy (get row col) then
               if JSON_parses (json_text (get row col)) then errors
               else push errors (mkError (i + 1) col ("Malformed JSON in " +:+ col) error)
             else errors)
          rows []
  end.

Definition validateReferences (rows : list Row) (col : string)
    (validIDs : gset value) (delimiter : ascii → bool) : list ValidationError :=
  forEach
    (λ row i errors,
       if truthy (get row col) then
         let ids := trim <$> split delimiter (String_ (get row col)) in
         forEach
           (λ id _ errors,
              if negb (is_empty id) && negb (bool_decide (VString id ∈ validIDs))
              then push errors (mkError (i + 1) col ("Unknown reference: " +:+ id) error)
              else errors)
           ids errors
       else errors)
    rows [].

Definition validateGroupTags (rows : list Row) (groupCol : string)
    : list ValidationError :=
  forEach
    (λ row i errors,
       let group := get row groupCol in
       if negb (truthy group) || is_empty (trim (String_ group))
       then push errors (mkError (i + 1) groupCol "Empty or invalid group tag" error)
       else errors)
    rows [].

Definition validateCircularGroups (rows : list Row) (idCol groupCol : string)
    : list ValidationError := [].

(** [String(row['AvailableSlots'] || '').split(/[,;]/).filter(Boolean)] *)
Definition slots_of (row : Row) : list string :=
  filter (λ s, is_empty s = false)
    (split comma_or_semicolon
       (String_ (or_else (get row "AvailableSlots") (VString "")))).

Definition validateWorkerLoad (rows : list Row) : list ValidationError :=
  forEach
    (λ row i errors,
       let slots := slots_of row in
       let maxLoad := Number_ (get row "MaxLoadPerPhase") in
       if lt (of_nat (length slots)) maxLoad
       then push errors
              (mkError (i + 1) "AvailableSlots"
                 "Worker overloaded: AvailableSlots < MaxLoadPerPhase" error)
       else errors)
    rows [].

Definition validateSkillCoverage (tasks workers : list Row) : list ValidationError :=
  let allSkills : gset string :=
    forEach
      (λ w _ allSkills,
         forEach (λ s _ (allSkills : gset string), {[ trim s ]} ∪ allSkills)
           (split comma_or_semicolon (String_ (or_else (get w "Skills") (VString ""))))
           allSkills)
      workers ∅ in
  forEach
    (λ task i errors,
       let reqSkills :=
         trim <$> split comma_or_semicolon
                    (String_ (or_else (get task "RequiredSkills") (VString ""))) in
       forEach
         (λ skill _ errors,
            if negb (is_empty skill) && negb (bool_decide (skill ∈ allSkills))
            then push errors
                   (mkError (i + 1) "RequiredSkills"
                      ("Skill not covered by any worker: " +:+ skill) error)
            else errors)
         reqSkills errors)
    tasks [].

(** The argument of [validateAll]; a dataset that is [undefined] or [null]
    is [None] (the guard reads [clients?.length]). *)
Record Datasets : Type := mkDatasets {
  clients : option (list Row);
  workers : option (list Row);
  tasks : option (list Row)
}.

(** The three results, under the keys [clients], [workers], [tasks]. *)
Record Results : Type := mkResults {
  clients_result : ValidationResult;
  workers_result : ValidationResult;
  tasks_result : ValidationResult
}.

(** [errs.reduce((acc, e) => { acc[e.type] = (acc[e.type]||0)+1; return acc; }, {})] *)
Definition summarize (errs : list ValidationError) : gmap string nat :=
  foldl (λ acc e, <[ Severity_tag (type e) := default 0 (acc !! Severity_tag (type e)) + 1 ]> acc)
    ∅ errs.

(** [!xs?.length] *)
Definition no_length (xs : option (list Row)) : bool :=
  match xs with
  | None | Some [] => true
  | Some (_ :: _) => false
  end.

Definition clientErrors (clients tasks : list Row) : list ValidationError :=
  validateRequiredColumns clients
    ["ClientID"; "ClientName"; "PriorityLevel"; "RequestedTaskIDs"; "GroupTag"; "AttributesJSON"]
  ++ validateDuplicateIDs clients "ClientID"
  ++ validateRange clients "PriorityLevel" (of_Z 1) (of_Z 5)
  ++ validateJSON clients "AttributesJSON"
  ++ validateGroupTags clients "GroupTag"
  ++ validateReferences clients "RequestedTaskIDs"
       (list_to_set ((λ t, get t "TaskID") <$> tasks)) comma_or_semicolon.

Definition workerErrors (workers : list Row) : list ValidationError :=
  validateRequiredColumns workers
    ["WorkerID"; "WorkerName"; "Skills"; "AvailableSlots"; "MaxLoadPerPhase"; "WorkerGroup";
     "QualificationLevel"]
  ++ validateDuplicateIDs workers "WorkerID"
  ++ validateNumericList workers "AvailableSlots"
  ++ validateWorkerLoad workers
  ++ validateGroupTags workers "WorkerGroup".

Definition taskErrors (tasks workers : list Row) : list ValidationError :=
  validateRequiredColumns tasks
    ["TaskID"; "TaskName"; "Category"; "Duration"; "RequiredSkills"; "PreferredPhases";
     "MaxConcurrent"]
  ++ validateDuplicateIDs tasks "TaskID"
  ++ validateRange tasks "Duration" (of_Z 1) Infinity
  ++ validateSkillCoverage tasks workers.

Definition empty_result : ValidationResult := mkResult [] ∅.

Definition validateAll (d : Datasets) : Results :=
  if no_length (clients d) || no_length (workers d) || no_length (tasks d) then
    mkResults empty_result empty_result empty_result
  else
    let clients := default [] (clients d) in
    let workers := default [] (workers d) in
    let tasks := default [] (tasks d) in
    let clientErrors := clientErrors clients tasks in
    let workerErrors := workerErrors workers in
    let taskErrors := taskErrors tasks workers in
    mkResults
      (mkResult clientErrors (summarize clientErrors))
      (mkResult workerErrors (summarize workerErrors))
      (mkResult taskErrors (summarize taskErrors)).

(** The validators of each pipeline, in the order [validateAll] spreads
    them into [clientErrors], [workerErrors] and [taskErrors]. *)
Definition clientPipeline (clients tasks : list Row) : list (list ValidationError) :=
  [ validateRequiredColumns clients
      ["ClientID"; "ClientName"; "PriorityLevel"; "RequestedTaskIDs"; "GroupTag";
       "AttributesJSON"];
    validateDuplicateIDs clients "ClientID";
    validateRange clients "PriorityLevel" (of_Z 1) (of_Z 5);
    validateJSON clients "AttributesJSON";
    validateGroupTags clients "GroupTag";
    validateReferences clients "RequestedTaskIDs"
      (list_to_set ((λ t, get t "TaskID") <$> tasks)) comma_or_semicolon ].

Definition workerPipeline (workers : list Row) : list (list ValidationError) :=
  [ validateRequiredColumns workers
      ["WorkerID"; "WorkerName"; "Skills"; "AvailableSlots"; "MaxLoadPerPhase"; "WorkerGroup";
       "QualificationLevel"];
    validateDuplicateIDs workers "WorkerID";
    validateNumericList workers "AvailableSlots";
    validateWorkerLoad workers;
    validateGroupTags workers "WorkerGroup" ].

Definition taskPipeline (tasks workers : list Row) : list (list ValidationError) :=
  [ validateRequiredColumns tasks
      ["TaskID"; "TaskName"; "Category"; "Duration"; "RequiredSkills"; "PreferredPhases";
       "MaxConcurrent"];
    validateDuplicateIDs tasks "TaskID";
    validateRange tasks "Duration" (of_Z 1) Infinity;
    validateSkillCoverage tasks workers ].

End Validators.

(** A dataset that is empty or absent. *)
Definition empty_or_absent (xs : option (list Row)) : Prop := xs = None ∨ xs = Some [].

(** Errors in row order, none beyond row [n]. *)
Definition ordered_upto (n : nat) (errs : list ValidationError) : Prop :=
  StronglySorted le (row <$> errs) ∧ Forall (λ e, row e ≤ n) errs.

(** Errors in row order. *)
Definition row_ordered (errs : list ValidationError) : Prop :=
  StronglySorted le (row <$> errs).

(** The number of errors of one [type]. *)
Definition count_of (t : Severity) (errs : list ValidationError) : nat :=
  length (filter (λ e, type e = t) errs).

(** What [summarize] is to hold for a list of errors: under each [type]
    that occurs, how often it occurs, and no other key. *)
Definition counts (errs : list ValidationError) (m : gmap string nat) : Prop :=
  (∀ t, m !! Severity_tag t = if count_of t errs =? 0 then None else Some (count_of t errs))
  ∧ (∀ k, (∀ t, k ≠ Severity_tag t) → m !! k = None).

End Validation.

(** ** The rule store *)

Module Rules.
Import JS.

(** [type Rule]: the tagged union, one constructor per [type] tag.  The
    [default] branch of [validateRule]'s switch has no value of this type
    to run on. *)
Inductive Rule : Type :=
| coRun (tasks : list string)
| slotRestriction (group : string) (minCommonSlots : number)
| loadLimit (group : string) (maxSlotsPerPhase : number)
| phaseWindow (task : string) (allowedPhases : list number)
| patternMatch (regex template : string) (params : gmap string value)
| precedenceOverride (global specific : list string) (priority : number).

#[global] Instance Rule_eq_dec : EqDecision Rule.
Proof. solve_decision. Defined.

(** [rule.type] *)
Definition type (rule : Rule) : string :=
  match rule with
  | coRun _ => "coRun"
  | slotRestriction _ _ => "slotRestriction"
  | loadLimit _ _ => "loadLimit"
  | phaseWindow _ _ => "phaseWindow"
  | patternMatch _ _ _ => "patternMatch"
  | precedenceOverride _ _ _ => "precedenceOverride"
  end.

Record Validation : Type := mkValidation {
  isValid : bool;
  errors : list string
}.

(** [if (cond) errors.push(msg)] *)
Definition push_if (cond : bool) (msg : string) (errors : list string) : list string :=
  if cond then errors ++ [msg] else errors.

(** [!s || !s.trim()] on a string *)
Definition blank (s : string) : bool := is_empty s || is_empty (trim s).

(** [!n || n < 1] on a number *)
Definition below_one (n : number) : bool := negb (truthy_number n) || lt n (of_Z 1).

(** The state of the store that the operations read and write.  Every
    operation builds a new array (spread, [map], [filter]) or stores its
    argument; none writes into an array in place, so the stored sequence
    is a value. *)
Record RulesState : Type := mkState { rules : list Rule }.

(** An operation runs on the state and either returns or throws an
    [Error] with a message; the state it leaves is the state after the
    [set] calls it made before that. *)
Inductive Outcome (A : Type) : Type :=
| Returned (a : A)
| Thrown (msg : string).
Arguments Returned {A} a.
Arguments Thrown {A} msg.

Definition Action (A : Type) : Type := RulesState → Outcome A * RulesState.

#[global] Instance Action_ret : MRet Action := λ A a st, (Returned a, st).

#[global] Instance Action_bind : MBind Action := λ A B k m st,
  match m st with
  | (Returned a, st') => k a st'
  | (Thrown msg, st') => (Thrown msg, st')
  end.

(** [get()] *)
Definition get_state : Action RulesState := λ st, (Returned st, st).

(** [set(update)] *)
Definition set_state (update : RulesState → RulesState) : Action unit :=
  λ st, (Returned tt, update st).

(** [throw new Error(msg)] *)
Definition throw {A : Type} (msg : string) : Action A := λ st, (Thrown msg, st).

Section Store.
Context `{Host}.

(** An array is truthy, so the [!rule.tasks], [!rule.allowedPhases],
    [!rule.global] and [!rule.specific] disjuncts never hold at type [Rule];
    what remains of each test is the comparison on [length]. *)
Definition validateRule (rule : Rule) : Validation :=
  let errors :=
    match rule with
    | coRun tasks =>
        let errors := push_if (length tasks <? 2) "Co-run rule must have at least 2 tasks" [] in
        push_if (existsb (λ task, is_empty (trim task)) tasks)
          "All tasks must have valid names" errors
    | slotRestriction group minCommonSlots =>
        let errors := push_if (blank group) "Slot restriction rule must have a group" [] in
        push_if (below_one minCommonSlots) "Minimum common slots must be at least 1" errors
    | loadLimit group maxSlotsPerPhase =>
        let errors := push_if (blank group) "Load limit rule must have a group" [] in
        push_if (below_one maxSlotsPerPhase) "Maximum slots per phase must be at least 1" errors
    | phaseWindow task allowedPhases =>
        let errors := push_if (blank task) "Phase window rule must have a task" [] in
        let errors :=
          push_if (length allowedPhases =? 0)
            "Phase window rule must have at least one allowed phase" errors in
        push_if (existsb (λ phase, lt phase (of_Z 1)) allowedPhases)
          "All phases must be positive numbers" errors
    | patternMatch regex template _ =>
        let errors := push_if (blank regex) "Pattern match rule must have a regex pattern" [] in
        let errors :=
          push_if (blank template) "Pattern match rule must have a template" errors in
        push_if (negb (RegExp_compiles regex)) "Invalid regex pattern" errors
    | precedenceOverride global specific priority =>
        let errors :=
          push_if (length global =? 0) "Precedence override rule must have global rules" [] in
        let errors :=
          push_if (length specific =? 0)
            "Precedence override rule must have specific rules" errors in
        push_if (below_one priority) "Priority must be at least 1" errors
    end in
  mkValidation (length errors =? 0) errors.

Definition addRule (rule : Rule) : Action unit :=
  let validation := validateRule rule in
  if negb (isValid validation) then
    throw ("Invalid rule: " +:+ join ", " (errors validation))
  else
    set_state (λ state, mkState (rules state ++ [rule])).

Definition updateRule (index : number) (rule : Rule) : Action unit :=
  let validation := validateRule rule in
  if negb (isValid validation) then
    throw ("Invalid rule: " +:+ join ", " (errors validation))
  else
    set_state (λ state,
      mkState (imap (λ i r, if strict_eq (of_nat i) index then rule else r) (rules state))).

(** [xs.filter((_, i) => keep(i))], from index [i] on. *)
Fixpoint filter_index_from {A : Type} (i : nat) (keep : nat → bool) (xs : list A) : list A :=
  match xs with
  | [] => []
  | x :: xs' =>
      if keep i then x :: filter_index_from (S i) keep xs'
      else filter_index_from (S i) keep xs'
  end.

Definition deleteRule (index : number) : Action unit :=
  set_state (λ state,
    mkState (filter_index_from 0 (λ i, negb (strict_eq (of_nat i) index)) (rules state))).

Definition clearRules : Action unit :=
  set_state (λ _, mkState []).

Definition importRules (rs : list Rule) : Action unit :=
  let invalidRules := filter (λ rule, isValid (validateRule rule) = false) rs in
  if 0 <? length invalidRules then
    throw ("Invalid rules found: " +:+ pretty (length invalidRules) +:+
           " rules failed validation")
  else
    set_state (λ _, mkState rs).

(** [[...new Set(xs)]]: the distinct members in order of first occurrence. *)
Fixpoint distinct_after (seen : list string) (xs : list string) : list string :=
  match xs with
  | [] => []
  | x :: xs' =>
      if bool_decide (x ∈ seen) then distinct_after seen xs'
      else x :: distinct_after (x :: seen) xs'
  end.

Record Metadata : Type := mkMetadata {
  generatedAt : string;
  totalRules : nat;
  ruleTypes : list string
}.

Record Export : Type := mkExport {
  exported_rules : list Rule;
  metadata : Metadata
}.

(** [exportRules()]; [now] is what [new Date().toISOString()] reads off
    the clock at the call. *)
Definition exportRules (now : string) : Action Export :=
  st ← get_state;
  let rules := rules st in
  mret (mkExport rules
          (mkMetadata now (length rules) (distinct_after [] (type <$> rules)))).

End Store.

(** The state an operation leaves, and whether it threw. *)
Definition state_after {A : Type} (op : Action A) (st : RulesState) : RulesState :=
  snd (op st).

Definition outcome_of {A : Type} (op : Action A) (st : RulesState) : Outcome A :=
  fst (op st).

(** The store as created: [rules: []]. *)
Definition initial : RulesState := mkState [].

(** The sequence of repository operations a client can issue. *)
Inductive Op : Type :=
| OpAdd (rule : Rule)
| OpUpdate (index : number) (rule : Rule)
| OpDelete (index : number)
| OpClear
| OpImport (rs : list Rule)
| OpExport (now : string).

Section Running.
Context `{Host}.

Definition valid (rule : Rule) : Prop := isValid (validateRule rule) = true.

#[global] Instance valid_dec rule : Decision (valid rule).
Proof. unfold valid. apply _. Defined.

(** The state one operation leaves; an operation that throws leaves the
    state it found. *)
Definition run (op : Op) (st : RulesState) : RulesState :=
  match op with
  | OpAdd rule => state_after (addRule rule) st
  | OpUpdate index rule => state_after (updateRule index rule) st
  | OpDelete index => state_after (deleteRule index) st
  | OpClear => state_after clearRules st
  | OpImport rs => state_after (importRules rs) st
  | OpExport now => state_after (exportRules now) st
  end.

Definition run_all (ops : list Op) (st : RulesState) : RulesState :=
  foldl (λ st op, run op st) st ops.

(** [0 <= index && index < n] *)
Definition in_range (index : number) (n : nat) : bool :=
  ge index (of_Z 0) && lt index (of_nat n).

End Running.

End Rules.

(** ** The construction invariants, as the specification words them

    The table of the six variants, read on its own: one constructor per
    invariant, what it asks of a rule, and the message [validateRule]
    reports for it.  [validateRule] is compared with this reading below. *)

Module Spec.
Import JS Rules.

Inductive Invariant : Type :=
| CoRunAtLeastTwoTasks
| CoRunTaskNamesNonBlank
| SlotGroupNonBlank
| SlotMinCommonSlotsAtLeastOne
| LoadGroupNonBlank
| LoadMaxSlotsAtLeastOne
| PhaseTaskNonBlank
| PhaseAtLeastOnePhase
| PhaseEveryPhaseAtLeastOne
| PatternRegexNonBlank
| PatternTemplateNonBlank
| PatternRegexCompiles
| PrecedenceGlobalNonEmpty
| PrecedenceSpecificNonEmpty
| PrecedencePriorityAtLeastOne.

#[global] Instance Invariant_eq_dec : EqDecision Invariant.
Proof. solve_decision. Defined.

(** The invariants of a rule's variant, in the order the code checks them. *)
Definition invariants_of (rule : Rule) : list Invariant :=
  match rule with
  | coRun _ => [CoRunAtLeastTwoTasks; CoRunTaskNamesNonBlank]
  | slotRestriction _ _ => [SlotGroupNonBlank; SlotMinCommonSlotsAtLeastOne]
  | loadLimit _ _ => [LoadGroupNonBlank; LoadMaxSlotsAtLeastOne]
  | phaseWindow _ _ => [PhaseTaskNonBlank; PhaseAtLeastOnePhase; PhaseEveryPhaseAtLeastOne]
  | patternMatch _ _ _ => [PatternRegexNonBlank; PatternTemplateNonBlank; PatternRegexCompiles]
  | precedenceOverride _ _ _ =>
      [PrecedenceGlobalNonEmpty; PrecedenceSpecificNonEmpty; PrecedencePriorityAtLeastOne]
  end.

(** The phases of a rule, if it has any. *)
Definition phases_of (rule : Rule) : list number :=
  match rule with
  | phaseWindow _ allowedPhases => allowedPhases
  | _ => []
  end.

(** "non-blank after trim" *)
Definition non_blank (s : string) : bool := negb (is_empty (trim s)).

(** "≥ 1" *)
Definition at_least_one (n : number) : bool := ge n (of_Z 1).

Section Holds.
Context `{Host}.

(** Whether a rule satisfies an invariant of its variant. *)
Definition holds (rule : Rule) (inv : Invariant) : bool :=
  match rule, inv with
  | coRun tasks, CoRunAtLeastTwoTasks => 2 <=? length tasks
  | coRun tasks, CoRunTaskNamesNonBlank => forallb non_blank tasks
  | slotRestriction group _, SlotGroupNonBlank => non_blank group
  | slotRestriction _ minCommonSlots, SlotMinCommonSlotsAtLeastOne => at_least_one minCommonSlots
  | loadLimit group _, LoadGroupNonBlank => non_blank group
  | loadLimit _ maxSlotsPerPhase, LoadMaxSlotsAtLeastOne => at_least_one maxSlotsPerPhase
  | phaseWindow task _, PhaseTaskNonBlank => non_blank task
  | phaseWindow _ allowedPhases, PhaseAtLeastOnePhase => 1 <=? length allowedPhases
  | phaseWindow _ allowedPhases, PhaseEveryPhaseAtLeastOne => forallb at_least_one allowedPhases
  | patternMatch regex _ _, PatternRegexNonBlank => non_blank regex
  | patternMatch _ template _, PatternTemplateNonBlank => non_blank template
  | patternMatch regex _ _, PatternRegexCompiles => RegExp_compiles regex
  | precedenceOverride global _ _, PrecedenceGlobalNonEmpty => 1 <=? length global
  | precedenceOverride _ specific _, PrecedenceSpecificNonEmpty => 1 <=? length specific
  | precedenceOverride _ _ priority, PrecedencePriorityAtLeastOne => at_least_one priority
  | _, _ => true
  end.

(** The invariants of its variant that a rule violates. *)
Definition violated (rule : Rule) : list Invariant :=
  filter (λ inv, holds rule inv = false) (invariants_of rule).

End Holds.

(** The message of the store for each invariant. *)
Definition message (inv : Invariant) : string :=
  match inv with
  | CoRunAtLeastTwoTasks => "Co-run rule must have at least 2 tasks"
  | CoRunTaskNamesNonBlank => "All tasks must have valid names"
  | SlotGroupNonBlank => "Slot restriction rule must have a group"
  | SlotMinCommonSlotsAtLeastOne => "Minimum common slots must be at least 1"
  | LoadGroupNonBlank => "Load limit rule must have a group"
  | LoadMaxSlotsAtLeastOne => "Maximum slots per phase must be at least 1"
  | PhaseTaskNonBlank => "Phase window rule must have a task"
  | PhaseAtLeastOnePhase => "Phase window rule must have at least one allowed phase"
  | PhaseEveryPhaseAtLeastOne => "All phases must be positive numbers"
  | PatternRegexNonBlank => "Pattern match rule must have a regex pattern"
  | PatternTemplateNonBlank => "Pattern match rule must have a template"
  | PatternRegexCompiles => "Invalid regex pattern"
  | PrecedenceGlobalNonEmpty => "Precedence override rule must have global rules"
  | PrecedenceSpecificNonEmpty => "Precedence override rule must have specific rules"
  | PrecedencePriorityAtLeastOne => "Priority must be at least 1"
  end.



(** A text as the list of its characters. *)
Definition chars (s : string) : list ascii := list_ascii_of_string s.

(** The text that is parsed for a cell text [s]: [s] itself unless it
    holds both braces; otherwise "the substring from the first [{] to the
    last [}]", both included.  When the last [}] comes before the first
    [{] the bounds are taken in the other order, which leaves what lies
    strictly between the two. *)
Inductive json_candidate (s : string) : string → Prop :=
| candidate_whole :
    "{"%char ∉ chars s ∨ "}"%char ∉ chars s →
    json_candidate s s
| candidate_braces (pre body post : list ascii) :
    chars s = pre ++ "{"%char :: body ++ "}"%char :: post →
    "{"%char ∉ pre → "}"%char ∉ post →
    json_candidate s (string_of_list_ascii ("{"%char :: body ++ ["}"%char]))
| candidate_between (pre mid post : list ascii) :
    chars s = pre ++ "}"%char :: mid ++ "{"%char :: post →
    "{"%char ∉ pre → "{"%char ∉ mid → "}"%char ∉ mid → "}"%char ∉ post →
    json_candidate s (string_of_list_ascii mid).

End Spec.

(** ** A host to run the code on

    Enough of a host to evaluate the code on the inputs used below: its
    numerals are the unsigned decimal ones, a pattern compiles when its
    parentheses are balanced, and a text parses as JSON when it is a
    brace-delimited object without nesting. *)

Module Sample.
Import JS.

Definition digit_value (c : ascii) : option nat :=
  let n := nat_of_ascii c in
  if (48 <=? n) && (n <=? 57) then Some (n - 48) else None.

Fixpoint decimal_from (acc : nat) (s : string) : option nat :=
  match s with
  | EmptyString => Some acc
  | String c s' =>
      match digit_value c with
      | Some d => decimal_from (10 * acc + d) s'
      | None => None
      end
  end.

Definition StringToNumber (s : string) : number :=
  match trim s with
  | EmptyString => of_Z 0
  | t => match decimal_from 0 t with
         | Some n => of_nat n
         | None => NaN
         end
  end.

Definition NumberToString (n : number) : string :=
  match n with
  | NaN => "NaN"
  | Infinity => "Infinity"
  | NegInfinity => "-Infinity"
  | Fin q =>
      let num := Qcanon.this q in
      pretty (QArith_base.Qnum num) +:+
      (if bool_decide (QArith_base.Qden num = 1%positive) then ""
       else "/" +:+ pretty (Z.pos (QArith_base.Qden num)))
  end.

Fixpoint balanced (depth : nat) (s : string) : bool :=
  match s with
  | EmptyString => depth =? 0
  | String c s' =>
      if bool_decide (c = "("%char) then balanced (S depth) s'
      else if bool_decide (c = ")"%char) then
        match depth with
        | 0 => false
        | S d => balanced d s'
        end
      else balanced depth s'
  end.

Definition flat_object (s : string) : bool :=
  match s with
  | String "{" body =>
      match lastIndexOf "}" body with
      | Some i => (S i =? String.length body) && negb (includes "{" body)
      | None => false
      end
  | _ => false
  end.

(** The text of the members of [Object.prototype]. *)
Definition BuiltinToString (name : string) : string :=
  if bool_decide (name = "__proto__") then "[object Object]"
  else "function " +:+ (if bool_decide (name = "constructor") then "Object" else name)
       +:+ "() { [native code] }".

Definition host : Host := {|
  RegExp_compiles := balanced 0;
  JSON_parses := flat_object;
  JS.StringToNumber := StringToNumber;
  JS.NumberToString := NumberToString;
  JS.BuiltinToString := BuiltinToString
|}.

End Sample.

(** ** exportUtils.ts: [validateExportData] *)

Module ExportUtils.
Import JS Validation.

Record ExportValidation : Type := mkExportValidation {
  isValid : bool;
  errors : list string
}.

(** [if (cond) errors.push(msg)] *)
Definition push_if (cond : bool) (msg : string) (errors : list string) : list string :=
  if cond then errors ++ [msg] else errors.

(** The block [if (rows && rows.length > 0) { ... }]: the required fields
    the first row lacks, reported in one message. *)
Definition check_fields (rows : option (list Row)) (required : list string)
    (prefix : string) (errors : list string) : list string :=
  match rows with
  | Some (first :: _) =>
      let missingFields := filter (λ field, has_key field first = false) required in
      push_if (0 <? length missingFields) (prefix +:+ join ", " missingFields) errors
  | _ => errors
  end.

Definition requiredClientFields : list string :=
  ["ClientID"; "ClientName"; "PriorityLevel"; "RequestedTaskIDs"; "GroupTag"].

Definition requiredWorkerFields : list string :=
  ["WorkerID"; "WorkerName"; "Skills"; "AvailableSlots"; "MaxLoadPerPhase"; "WorkerGroup"].

Definition requiredTaskFields : list string :=
  ["TaskID"; "TaskName"; "Category"; "Duration"; "RequiredSkills"; "PreferredPhases"].

(** [!rows || rows.length === 0] is [no_length rows]. *)
Definition validateExportData (clients workers tasks : option (list Row))
    : ExportValidation :=
  let errors := push_if (no_length clients) "No clients data available for export" [] in
  let errors := push_if (no_length workers) "No workers data available for export" errors in
  let errors := push_if (no_length tasks) "No tasks data available for export" errors in
  let errors :=
    check_fields clients requiredClientFields "Missing required client fields: " errors in
  let errors :=
    check_fields workers requiredWorkerFields "Missing required worker fields: " errors in
  let errors :=
    check_fields tasks requiredTaskFields "Missing required task fields: " errors in
  mkExportValidation (length errors =? 0) errors.

(** The first row of a dataset has every field of a list. *)
Definition first_row_has (rows : option (list Row)) (required : list string) : Prop :=
  match rows with
  | Some (first :: _) => ∀ field, field ∈ required → has_key field first = true
  | _ => True
  end.

End ExportUtils.

(** ** exportUtils.ts: the text [exportToCSV] writes

    [exportToCSV] builds [csvContent] and hands it to the browser as a
    download; the model stops at [csvContent].  [headers] stands for
    [Object.keys(data[0])]. *)

Module ExportCSV.
Import JS Validation.

Definition quote : ascii := ascii_of_nat 34.
Definition comma : ascii := ","%char.
Definition newline : ascii := ascii_of_nat 10.

(** [s.replace(/Q/g, 'QQ')], [Q] the double quote. *)
Fixpoint double_quotes (s : string) : string :=
  match s with
  | EmptyString => EmptyString
  | String c s' =>
      if bool_decide (c = quote) then String quote (String quote (double_quotes s'))
      else String c (double_quotes s')
  end.

(** The cell text for [stringValue]. *)
Definition csv_text (stringValue : string) : string :=
  if includes comma stringValue || includes quote stringValue || includes newline stringValue
  then String quote (double_quotes stringValue +:+ String quote EmptyString)
  else stringValue.

Section Cells.
Context `{Host}.

(** [String(value || '')] *)
Definition stringValue (value : JS.value) : string :=
  String_ (or_else value (VString "")).

(** [headers.map(header => ...).join(',')] for one row. *)
Definition csv_line (headers : list string) (row : Row) : string :=
  join "," ((λ header, csv_text (stringValue (get row header))) <$> headers).

(** [[headers.join(','), ...data.map(row => ...)].join('\n')]; nothing is
    written when [data] is empty. *)
Definition csvContent (headers : list string) (data : list Row) : option string :=
  match data with
  | [] => None
  | _ => Some (join (String newline EmptyString)
                 (join "," headers :: (csv_line headers <$> data)))
  end.

End Cells.

(** A reader of one line of comma-separated fields, quoted fields with
    doubled quotes included; it is the yardstick the written lines are
    held against. *)
Inductive Mode : Type := FieldStart | Unquoted | Quoted | QuoteSeen.

Definition cons_head (c : ascii) (fields : list string) : list string :=
  match fields with
  | field :: rest => String c field :: rest
  | [] => [String c EmptyString]
  end.

Fixpoint read_fields (m : Mode) (s : string) : list string :=
  match s with
  | EmptyString => [EmptyString]
  | String c s' =>
      match m with
      | FieldStart =>
          if bool_decide (c = quote) then read_fields Quoted s'
          else if bool_decide (c = comma) then EmptyString :: read_fields FieldStart s'
          else cons_head c (read_fields Unquoted s')
      | Unquoted =>
          if bool_decide (c = comma) then EmptyString :: read_fields FieldStart s'
          else cons_head c (read_fields Unquoted s')
      | Quoted =>
          if bool_decide (c = quote) then read_fields QuoteSeen s'
          else cons_head c (read_fields Quoted s')
      | QuoteSeen =>
          if bool_decide (c = quote) then cons_head quote (read_fields Quoted s')
          else if bool_decide (c = comma) then EmptyString :: read_fields FieldStart s'
          else cons_head c (read_fields Unquoted s')
      end
  end.

(** The rest of a line after a field: nothing, or a comma and more. *)
Definition after_field (tail : string) : list string :=
  match tail with
  | EmptyString => []
  | String _ s => read_fields FieldStart s
  end.

Definition field_tail (tail : string) : Prop :=
  tail = "" ∨ ∃ s, tail = String comma s.

End ExportCSV.

(** ** RuleBuilder.tsx: the form handlers

    The component's state that its handlers read and write: the text of
    the form fields, the index of the rule being edited, and the messages
    shown.  A handler runs on the state of the render it was created in and
    on the store, and leaves both; the alerts, the file input and the
    pattern-match handler (whose [params] are whatever [JSON.parse] returns)
    are not part of the model.  The indices the handlers receive are those
    of [rules.map((rule, idx) => ...)]. *)

Module RuleBuilder.
Import JS Rules.

(** What the handlers call of the host besides [Host]. *)
Class FormHost : Type := {
  (** [parseInt(s)] *)
  parseInt : string → number;
  (** [JSON.stringify(params, null, 2)] *)
  JSON_stringify : gmap string value → string
}.

(** The class [/[,\s]/]. *)
Definition comma_or_space (c : ascii) : bool :=
  bool_decide (c = ","%char) || is_white_space c.

(** [s.split(/[...]+/)]: the separators are the maximal runs of characters
    of the class; [in_run] tells that the previous character was one. *)
Fixpoint split_runs_from (sep : ascii → bool) (in_run : bool) (s : string) : list string :=
  match s with
  | EmptyString => [EmptyString]
  | String c s' =>
      if sep c then
        if in_run then split_runs_from sep true s'
        else EmptyString :: split_runs_from sep true s'
      else match split_runs_from sep false s' with
           | field :: fields => String c field :: fields
           | [] => [String c EmptyString]
           end
  end.

Definition split_runs (sep : ascii → bool) (s : string) : list string :=
  split_runs_from sep false s.

(** [s.split(/[,\s]+/).map(t => t.trim()).filter(Boolean)] *)
Definition words (s : string) : list string :=
  filter (λ t, is_empty t = false) (trim <$> split_runs comma_or_space s).

Record Form : Type := mkForm {
  selectedRuleType : string;
  coRunTasks : string;
  slotRestrictionGroup : string;
  minCommonSlots : string;
  loadLimitGroup : string;
  maxSlotsPerPhase : string;
  phaseWindowTask : string;
  allowedPhases : string;
  patternRegex : string;
  patternTemplate : string;
  patternParams : string;
  globalRules : string;
  specificRules : string;
  priorityOrder : string;
  editingIndex : option nat;
  validationErrors : list string
}.

(** [setValidationErrors(errs)] *)
Definition setValidationErrors (errs : list string) (f : Form) : Form :=
  mkForm (selectedRuleType f) (coRunTasks f) (slotRestrictionGroup f) (minCommonSlots f)
    (loadLimitGroup f) (maxSlotsPerPhase f) (phaseWindowTask f) (allowedPhases f)
    (patternRegex f) (patternTemplate f) (patternParams f) (globalRules f) (specificRules f)
    (priorityOrder f) (editingIndex f) errs.

(** [setEditingIndex(index)] *)
Definition setEditingIndex (index : option nat) (f : Form) : Form :=
  mkForm (selectedRuleType f) (coRunTasks f) (slotRestrictionGroup f) (minCommonSlots f)
    (loadLimitGroup f) (maxSlotsPerPhase f) (phaseWindowTask f) (allowedPhases f)
    (patternRegex f) (patternTemplate f) (patternParams f) (globalRules f) (specificRules f)
    (priorityOrder f) index (validationErrors f).

Definition clearForm (f : Form) : Form :=
  mkForm (selectedRuleType f) "" "" "" "" "" "" "" "" "" "" "" "" "" None [].

(** The state of the first render: every [useState('')], [useState(null)]
    and [useState([])]. *)
Definition initialForm : Form :=
  mkForm "" "" "" "" "" "" "" "" "" "" "" "" "" "" None [].

Section Handlers.
Context `{Host} `{FormHost}.

Definition handleEditRule (rule : Rule) (index : nat) (f : Form) : Form :=
  let f := setEditingIndex (Some index) f in
  match rule with
  | coRun tasks =>
      mkForm (type rule) (join ", " tasks) (slotRestrictionGroup f) (minCommonSlots f)
        (loadLimitGroup f) (maxSlotsPerPhase f) (phaseWindowTask f) (allowedPhases f)
        (patternRegex f) (patternTemplate f) (patternParams f) (globalRules f)
        (specificRules f) (priorityOrder f) (editingIndex f) (validationErrors f)
  | slotRestriction group n =>
      mkForm (type rule) (coRunTasks f) group (NumberToString n)
        (loadLimitGroup f) (maxSlotsPerPhase f) (phaseWindowTask f) (allowedPhases f)
        (patternRegex f) (patternTemplate f) (patternParams f) (globalRules f)
        (specificRules f) (priorityOrder f) (editingIndex f) (validationErrors f)
  | loadLimit group n =>
      mkForm (type rule) (coRunTasks f) (slotRestrictionGroup f) (minCommonSlots f)
        group (NumberToString n) (phaseWindowTask f) (allowedPhases f)
        (patternRegex f) (patternTemplate f) (patternParams f) (globalRules f)
        (specificRules f) (priorityOrder f) (editingIndex f) (validationErrors f)
  | phaseWindow task phases =>
      mkForm (type rule) (coRunTasks f) (slotRestrictionGroup f) (minCommonSlots f)
        (loadLimitGroup f) (maxSlotsPerPhase f) task (join ", " (NumberToString <$> phases))
        (patternRegex f) (patternTemplate f) (patternParams f) (globalRules f)
        (specificRules f) (priorityOrder f) (editingIndex f) (validationErrors f)
  | patternMatch regex template params =>
      mkForm (type rule) (coRunTasks f) (slotRestrictionGroup f) (minCommonSlots f)
        (loadLimitGroup f) (maxSlotsPerPhase f) (phaseWindowTask f) (allowedPhases f)
        regex template (JSON_stringify params) (globalRules f)
        (specificRules f) (priorityOrder f) (editingIndex f) (validationErrors f)
  | precedenceOverride global specific priority =>
      mkForm (type rule) (coRunTasks f) (slotRestrictionGroup f) (minCommonSlots f)
        (loadLimitGroup f) (maxSlotsPerPhase f) (phaseWindowTask f) (allowedPhases f)
        (patternRegex f) (patternTemplate f) (patternParams f) (join ", " global)
        (join ", " specific) (NumberToString priority) (editingIndex f) (validationErrors f)
  end.

Definition handleDeleteRule (index : nat) (f : Form) (st : RulesState)
    : Form * RulesState :=
  let st' := state_after (deleteRule (of_nat index)) st in
  match editingIndex f with
  | Some editing =>
      if bool_decide (editing = index) then (clearForm f, st')
      else if index <? editing then (setEditingIndex (Some (editing - 1)) f, st')
      else (f, st')
  | None => (f, st')
  end.

(** The [try]/[catch] of [handleSaveRule] and [handleAIGeneratedRule]
    around a store call. *)
Definition try_store (op : Action unit) (done : Form → Form) (f : Form) (st : RulesState)
    : Form * RulesState :=
  match op st with
  | (Returned _, st') => (done f, st')
  | (Thrown msg, st') => (setValidationErrors [msg] f, st')
  end.

Definition handleSaveRule (newRule : Rule) (f : Form) (st : RulesState)
    : Form * RulesState :=
  match editingIndex f with
  | Some editing => try_store (updateRule (of_nat editing) newRule) clearForm f st
  | None => try_store (addRule newRule) clearForm f st
  end.

Definition handleAIGeneratedRule (rule : Rule) (f : Form) (st : RulesState)
    : Form * RulesState :=
  try_store (addRule rule) (setValidationErrors []) f st.

Definition handleAddCoRunRule (f : Form) (st : RulesState) : Form * RulesState :=
  let tasks := words (coRunTasks f) in
  if length tasks <? 2 then
    (setValidationErrors ["Please enter at least two TaskIDs."] f, st)
  else handleSaveRule (coRun tasks) f st.




Definition handleAddPrecedenceOverrideRule (f : Form) (st : RulesState)
    : Form * RulesState :=
  let global := words (globalRules f) in
  let specific := words (specificRules f) in
  let priority := parseInt (priorityOrder f) in
  if isNaN priority || lt priority (of_Z 1) then
    (setValidationErrors ["Please enter a valid priority order (at least 1)."] f, st)
  else handleSaveRule (precedenceOverride global specific priority) f st.

End Handlers.

(** The store after [handleSaveRule] with a rule the store accepts: the
    rule replaces the one being edited, or is appended. *)
Definition saved (rule : Rule) (f : Form) (st : RulesState) : RulesState :=
  match editingIndex f with
  | Some editing => mkState (<[editing := rule]> (rules st))
  | None => mkState (rules st ++ [rule])
  end.


(** A string without comma or white space. *)
Fixpoint plain (s : string) : bool :=
  match s with
  | EmptyString => true
  | String c s' => negb (comma_or_space c) && plain s'
  end.

End RuleBuilder.

(** A form host to run the handlers on: [parseInt] reads the longest run
    of decimal digits after the leading white space. *)

Module SampleForm.
Import JS RuleBuilder.

Fixpoint leading_digits (s : string) : list nat :=
  match s with
  | EmptyString => []
  | String c s' =>
      match Sample.digit_value c with
      | Some d => d :: leading_digits s'
      | None => []
      end
  end.

Definition parseInt (s : string) : number :=
  match leading_digits (trimStart s) with
  | [] => NaN
  | ds => of_nat (foldl (λ acc d, 10 * acc + d) 0 ds)
  end.

Definition host : FormHost := {|
  RuleBuilder.parseInt := parseInt;
  JSON_stringify := λ _, "{}"
|}.

End SampleForm.

(** ** What the validators read off a row *)

Module Views.
Import JS Validation.

(** [rows.map(row => row[col])] *)
Definition column_of (col : string) (rows : list Row) : list value :=
  (λ r, get r col) <$> rows.

Section Tokens.
Context `{Host}.

(** [String(v).split(delimiter).map(s => s.trim())] *)
Definition tokens (delimiter : ascii → bool) (v : value) : list string :=
  trim <$> split delimiter (String_ v).



End Tokens.

(** A row lacks a column: the name is none of its own keys and none of
    the names it inherits. *)
Definition lacks (r : Row) (col : string) : Prop :=
  r !! col = None ∧ col ∉ Object_prototype.

#[global] Instance lacks_dec (r : Row) (col : string) : Decision (lacks r col).
Proof. unfold lacks. apply _. Defined.

(** An error of [type] ['error'] whose row is at most [n]. *)
Definition reported_within (n : nat) (e : ValidationError) : Prop :=
  row e ≤ n ∧ type e = error.

End Views.

(** ** The page: the validation state, its summary and cell edits *)

Module Page.
Import JS Validation.

Section Effect.
Context `{Host}.

(** The effect that follows [data]: [validation] is [validateAll] of the
    three datasets when all are loaded and have rows, and [{}] otherwise. *)
Definition validation (data : Datasets) : option Results :=
  match clients data, workers data, tasks data with
  | Some c, Some w, Some t =>
      if bool_decide (0 < length c) && bool_decide (0 < length w)
         && bool_decide (0 < length t)
      then Some (validateAll data)
      else None
  | _, _, _ => None
  end.

End Effect.

(** [data && data[e.row - 1]], the row the Suggest Fix button of an entry
    is bound to; no button without it. *)
Definition fix_row (data : option (list Row)) (e : ValidationError) : option Row :=
  match data, row e with
  | Some rows, S k => rows !! k
  | _, _ => None
  end.

(** What [ValidationSummary] renders: the success alert, or the count, the
    listed entries with their buttons and the line counting the rest. *)
Inductive Summary : Type :=
| NoErrors
| Listed (count : nat) (items : list (ValidationError * option Row)) (more : option nat).

Definition ValidationSummary (open : bool) (result : option ValidationResult)
    (data : option (list Row)) : Summary :=
  match result with
  | None => NoErrors
  | Some result =>
      match errors result with
      | [] => NoErrors
      | errs =>
          Listed (length errs)
            ((λ e, (e, fix_row data e)) <$> take (if open then 10 else 0) errs)
            (if bool_decide (10 < length errs) && open then Some (length errs - 10)
             else None)
      end
  end.

(** [i === newRow.id] *)
Definition is_index (i : nat) (id : value) : bool :=
  match id with
  | VNumber n => strict_eq (of_nat i) n
  | _ => false
  end.

(** [prev[dataset]?.map((row, i) => i === newRow.id ? { ...row, ...newRow } : row) || []],
    the rows [handleProcessRowUpdate] stores for the dataset. *)
Definition handleProcessRowUpdate (newRow : Row) (prev : option (list Row)) : list Row :=
  match prev with
  | Some rows => imap (λ i row, if is_index i (get newRow "id") then newRow ∪ row else row) rows
  | None => []
  end.

(** [rows.map((row, i) => ({ id: i, ...row }))], the rows handed to the
    grid. *)
Definition grid_rows (rows : list Row) : list Row :=
  imap (λ i row, row ∪ {[ "id" := VNumber (of_nat i) ]}) rows.

End Page.

(** * Properties *)

(** ** The rule store *)

Module RulesFacts.
Import JS Rules.

Section Facts.
Context `{Host}.

Lemma state_eta (st : RulesState) : mkState (rules st) = st.
Proof. by destruct st. Qed.

Lemma addRule_valid rule st :
  valid rule → addRule rule st = (Returned tt, mkState (rules st ++ [rule])).
Proof. unfold valid, addRule. by intros ->. Qed.

Lemma addRule_invalid rule st :
  ¬ valid rule →
  addRule rule st =
    (Thrown ("Invalid rule: " +:+ join ", " (errors (validateRule rule))), st).
Proof.
  unfold valid, addRule. intros Hv.
  by destruct (isValid (validateRule rule)).
Qed.

Lemma filter_index_from_Forall {A} (P : A → Prop) keep i (xs : list A) :
  Forall P xs → Forall P (filter_index_from i keep xs).
Proof.
  intros HP. revert i.
  induction HP as [|x xs Hx _ IH]; intros i; simpl; [constructor|].
  destruct (keep i); [constructor|]; auto.
Qed.

Lemma imap_replace_Forall (P : Rule → Prop) (test : nat → bool) rule (xs : list Rule) :
  P rule → Forall P xs → Forall P (imap (λ i r, if test i then rule else r) xs).
Proof.
  intros Hrule HP. revert test.
  induction HP as [|x xs Hx _ IH]; intros test; simpl; [constructor|].
  constructor; [by destruct (test 0)|]. apply (IH (test ∘ S)).
Qed.

Lemma imap_no_match (test : nat → bool) rule (xs : list Rule) :
  (∀ i, i < length xs → test i = false) →
  imap (λ i r, if test i then rule else r) xs = xs.
Proof.
  revert test. induction xs as [|x xs IH]; intros test Htest; simpl; [done|].
  rewrite (Htest 0) by (simpl; lia). f_equal.
  apply (IH (test ∘ S)). intros i Hi. apply Htest. simpl. lia.
Qed.

Lemma filter_invalid_nil (rs : list Rule) :
  Forall valid rs → filter (λ rule, isValid (validateRule rule) = false) rs = [].
Proof.
  induction 1 as [|r rs Hr _ IH]; [done|].
  rewrite filter_cons_False; [done|]. unfold valid in Hr. by rewrite Hr.
Qed.

Lemma filter_invalid_length_pos (rs : list Rule) :
  ¬ Forall valid rs →
  0 < length (filter (λ rule, isValid (validateRule rule) = false) rs).
Proof.
  intros Hn. apply not_Forall_Exists in Hn; [|apply _].
  apply Exists_exists in Hn as (r & Hin & Hr).
  assert (Hf : r ∈ filter (λ rule, isValid (validateRule rule) = false) rs).
  { apply list_elem_of_filter. split; [|done].
    by apply not_true_is_false. }
  destruct (filter _ rs); [by apply elem_of_nil in Hf|simpl; lia].
Qed.

Lemma importRules_valid rs st :
  Forall valid rs → importRules rs st = (Returned tt, mkState rs).
Proof. intros Hv. unfold importRules. by rewrite filter_invalid_nil. Qed.

Lemma importRules_invalid rs st :
  ¬ Forall valid rs →
  importRules rs st =
    (Thrown ("Invalid rules found: " +:+
             pretty (length (filter (λ rule, isValid (validateRule rule) = false) rs)) +:+
             " rules failed validation"), st).
Proof.
  intros Hn. unfold importRules.
  apply filter_invalid_length_pos, Nat.ltb_lt in Hn. by rewrite Hn.
Qed.

Lemma run_preserves_valid op st :
  Forall valid (rules st) → Forall valid (rules (run op st)).
Proof.
  intros Hst.
  destruct op as [rule|index rule|index| |rs|now]; unfold run, state_after.
  - destruct (decide (valid rule)) as [Hv|Hv].
    + rewrite addRule_valid by done. simpl. apply Forall_app. by split; [|constructor].
    + by rewrite addRule_invalid.
  - unfold updateRule.
    destruct (isValid (validateRule rule)) eqn:Hv; simpl; [|done].
    by apply imap_replace_Forall.
  - simpl. by apply filter_index_from_Forall.
  - simpl. constructor.
  - destruct (decide (Forall valid rs)) as [Hv|Hv].
    + by rewrite importRules_valid.
    + by rewrite importRules_invalid.
  - done.
Qed.

Lemma strict_eq_in_range (i n : nat) (index : number) :
  i < n → strict_eq (of_nat i) index = true → in_range index n = true.
Proof.
  intros Hi Heq. unfold strict_eq, of_nat, of_Z in Heq.
  destruct index as [| |q|]; try done.
  apply bool_decide_eq_true in Heq. injection Heq as <-.
  unfold in_range, ge, lt, of_nat, of_Z.
  apply andb_true_intro. split.
  - apply negb_true_iff, bool_decide_eq_false. rewrite <-Z2Qc_inj_lt. lia.
  - apply bool_decide_eq_true. rewrite <-Z2Qc_inj_lt. lia.
Qed.


(** C1. Starting from the empty store, whatever sequence of [addRule],
    [updateRule], [deleteRule], [clearRules], [importRules] (and
    [exportRules]) calls is made, throwing or not, every rule of the stored
    sequence passes [validateRule]. *)
Theorem C1_repository_validity (ops : list Op) :
  Forall valid (rules (run_all ops initial)).
Proof.
  unfold run_all.
  assert (Hinit : Forall valid (rules initial)) by constructor.
  revert Hinit. generalize initial as st.
  induction ops as [|op ops IH]; intros st Hst; simpl; [done|].
  apply IH. by apply run_preserves_valid.
Qed.

(** C2. If some rule of [rs] fails [validateRule], [importRules rs] throws
    an error whose message carries the number of failing rules and the
    state is the one the call found; if every rule passes, the call
    returns and the stored sequence is [rs]. *)
Theorem C2_importRules_atomic (rs : list Rule) (st : RulesState) :
  (Exists (λ rule, ¬ valid rule) rs →
   let n := length (filter (λ rule, ¬ valid rule) rs) in
   0 < n ∧
   importRules rs st =
     (Thrown ("Invalid rules found: " +:+ pretty n +:+ " rules failed validation"), st))
  ∧ (Forall valid rs → importRules rs st = (Returned tt, mkState rs)).
Proof.
  split.
  - intros Hex.
    assert (Hn : ¬ Forall valid rs).
    { intros Hall. apply Exists_exists in Hex as (r & Hin & Hr).
      by eapply Hr, Forall_forall. }
    assert (Hfilter : filter (λ rule, ¬ valid rule) rs =
                      filter (λ rule, isValid (validateRule rule) = false) rs).
    { apply list_filter_iff. intros r. unfold valid.
      by destruct (isValid (validateRule r)); split. }
    simpl. rewrite Hfilter. split.
    + by apply filter_invalid_length_pos.
    + by apply importRules_invalid.
  - intros Hall. by apply importRules_valid.
Qed.

(** C9. When every rule of [rs] passes [validateRule], [importRules rs]
    returns and the stored sequence is [rs], whatever was stored before. *)
Theorem C9_importRules_replaces (rs : list Rule) (st st' : RulesState) :
  Forall valid rs →
  importRules rs st = (Returned tt, mkState rs) ∧
  state_after (importRules rs) st = state_after (importRules rs) st'.
Proof.
  intros Hall. unfold state_after. by rewrite !importRules_valid.
Qed.

(** C10. [updateRule index rule] with a valid [rule] and an [index] outside
    [0, length) returns and leaves the state as it was; and [updateRule]
    throws exactly when [rule] fails [validateRule]. *)
Theorem C10_updateRule_out_of_range (index : number) (rule : Rule) (st : RulesState) :
  (valid rule → in_range index (length (rules st)) = false →
   updateRule index rule st = (Returned tt, st))
  ∧ ((∃ msg, outcome_of (updateRule index rule) st = Thrown msg) ↔ ¬ valid rule).
Proof.
  split.
  - intros Hv Hout. unfold updateRule, valid in *. rewrite Hv. simpl.
    unfold set_state. rewrite imap_no_match, state_eta; [done|].
    intros i Hi. apply not_true_is_false. intros Heq.
    apply (strict_eq_in_range i (length (rules st))) in Heq; [congruence|done].
  - unfold outcome_of, updateRule, valid.
    destruct (isValid (validateRule rule)); simpl; split.
    + by intros [msg ?].
    + by intros [].
    + by intros _.
    + intros _. by eexists.
Qed.

(** C7. On a state whose rules all pass [validateRule]: [exportRules]
    returns the stored sequence and leaves the state alone, and exporting,
    clearing, then importing the exported [rules] returns and leaves the
    stored sequence equal to the original one. *)
Theorem C7_export_import_roundtrip (now : string) (st : RulesState) :
  Forall valid (rules st) →
  (∃ ex, exportRules now st = (Returned ex, st) ∧ exported_rules ex = rules st) ∧
  (ex ← exportRules now; clearRules;; importRules (exported_rules ex)) st
    = (Returned tt, mkState (rules st)).
Proof.
  intros Hall. split; [by eexists|].
  unfold mbind, Action_bind. simpl. by apply importRules_valid.
Qed.

End Facts.
End RulesFacts.

(** ** [validateRule] against the invariants of the specification *)

Module SpecFacts.
Import JS Rules Spec RulesFacts.

Section Facts.
Context `{Host}.

Lemma trim_empty : trim "" = "".
Proof. reflexivity. Qed.

Lemma blank_non_blank (s : string) : blank s = negb (non_blank s).
Proof.
  unfold blank, non_blank. rewrite negb_involutive.
  by destruct s as [|c s]; [rewrite trim_empty|].
Qed.

Lemma below_one_at_least_one (n : number) : below_one n = negb (at_least_one n).
Proof.
  unfold below_one, at_least_one.
  destruct n as [| |q|]; try reflexivity.
  unfold ge, lt, truthy_number, of_Z. rewrite !negb_involutive.
  case_bool_decide as Hq; [|done].
  by subst q.
Qed.

Lemma lt_one_at_least_one (n : number) :
  n ≠ NaN → lt n (of_Z 1) = negb (at_least_one n).
Proof.
  intros Hn. unfold at_least_one.
  destruct n as [| |q|]; try done. unfold ge, of_Z. by rewrite negb_involutive.
Qed.

Lemma existsb_lt_one (phases : list number) :
  NaN ∉ phases →
  existsb (λ phase, lt phase (of_Z 1)) phases = negb (forallb at_least_one phases).
Proof.
  induction phases as [|p phases IH]; intros Hnan; simpl; [done|].
  rewrite not_elem_of_cons in Hnan. destruct Hnan as [Hp Hnan].
  rewrite IH, lt_one_at_least_one by done.
  by destruct (at_least_one p).
Qed.

Lemma existsb_blank (names : list string) :
  existsb (λ task, is_empty (trim task)) names = negb (forallb non_blank names).
Proof.
  induction names as [|s names IH]; simpl; [done|].
  rewrite IH. unfold non_blank. by destruct (is_empty (trim s)).
Qed.

(** Away from NaN phases, [validateRule] reports exactly the violated
    invariants of the rule's variant, all of them, in the order of
    [invariants_of]. *)
Lemma validateRule_errors (rule : Rule) :
  NaN ∉ phases_of rule →
  errors (validateRule rule) = message <$> violated rule.
Proof.
  intros Hnan.
  destruct rule as [tasks|group n|group n|task phases|regex template params|global specific n];
    unfold validateRule, violated, invariants_of, holds, push_if;
    cbn [errors phases_of] in *;
    rewrite ?blank_non_blank, ?below_one_at_least_one, ?existsb_blank,
      ?(existsb_lt_one _ Hnan).
  - destruct (Nat.ltb_spec (length tasks) 2), (Nat.leb_spec 2 (length tasks));
      try lia; by destruct (forallb non_blank tasks).
  - by destruct (non_blank group), (at_least_one n).
  - by destruct (non_blank group), (at_least_one n).
  - destruct (Nat.eqb_spec (length phases) 0), (Nat.leb_spec 1 (length phases));
      try lia; by destruct (non_blank task), (forallb at_least_one phases).
  - by destruct (non_blank regex), (non_blank template), (RegExp_compiles regex).
  - destruct (Nat.eqb_spec (length global) 0), (Nat.leb_spec 1 (length global));
      try lia;
      destruct (Nat.eqb_spec (length specific) 0), (Nat.leb_spec 1 (length specific));
      try lia; by destruct (at_least_one n).
Qed.

Lemma validateRule_isValid (rule : Rule) :
  isValid (validateRule rule) = bool_decide (errors (validateRule rule) = []).
Proof.
  unfold validateRule. simpl.
  match goal with |- context [length ?l =? 0] => by destruct l end.
Qed.

(** Away from NaN phases, [addRule] throws exactly when the rule violates
    an invariant of its variant, the message joins the messages of all the
    violated ones, and otherwise the rule is appended. *)
Lemma addRule_raises_iff (rule : Rule) (st : RulesState) :
  NaN ∉ phases_of rule →
  (violated rule ≠ [] →
   addRule rule st =
     (Thrown ("Invalid rule: " +:+ join ", " (message <$> violated rule)), st))
  ∧ (violated rule = [] →
     addRule rule st = (Returned tt, mkState (rules st ++ [rule]))).
Proof.
  intros Hnan. pose proof (validateRule_errors rule Hnan) as Herr.
  pose proof (validateRule_isValid rule) as Hvalid.
  split; intros Hv.
  - rewrite addRule_invalid, Herr; [done|].
    unfold valid. rewrite Hvalid, Herr.
    rewrite bool_decide_eq_true. by destruct (violated rule).
  - apply addRule_valid. unfold valid.
    rewrite Hvalid, Herr, Hv. done.
Qed.

(** A rule that satisfies every invariant of its variant passes
    [validateRule]. *)
Lemma satisfied_valid (rule : Rule) : violated rule = [] → valid rule.
Proof.
  intros Hv.
  assert (Hnan : NaN ∉ phases_of rule).
  { destruct rule as [| | |task phases| |]; simpl; try apply not_elem_of_nil.
    intros Hin. unfold violated, invariants_of, holds in Hv.
    assert (Hph : forallb at_least_one phases = false).
    { clear Hv. induction phases as [|p phases IH]; [by apply elem_of_nil in Hin|].
      apply elem_of_cons in Hin as [<-|Hin]; simpl; [done|].
      rewrite IH by done. apply andb_false_r. }
    rewrite Hph in Hv.
    by destruct (non_blank task), (1 <=? length phases). }
  unfold valid. by rewrite validateRule_isValid, validateRule_errors, Hv.
Qed.

(** The two failures the specification names. *)
Lemma addRule_coRun_one_task (st : RulesState) :
  addRule (coRun ["T1"]) st =
    (Thrown "Invalid rule: Co-run rule must have at least 2 tasks", st).
Proof. reflexivity. Qed.

Lemma addRule_unclosed_regex (st : RulesState) :
  RegExp_compiles "(unclosed" = false →
  addRule (patternMatch "(unclosed" "t" ∅) st = (Thrown "Invalid rule: Invalid regex pattern", st).
Proof. intros Hre. unfold addRule, validateRule. simpl. by rewrite Hre. Qed.

(** C4. On a phase-window rule with a NaN phase, the invariant "every
    phase ≥ 1" is violated, yet [validateRule] reports nothing and
    [addRule] returns with the rule appended. *)
Theorem C4_addRule_accepts_NaN_phase (st : RulesState) :
  let rule := phaseWindow "T1" [NaN] in
  violated rule = [PhaseEveryPhaseAtLeastOne] ∧
  errors (validateRule rule) = [] ∧
  addRule rule st = (Returned tt, mkState (rules st ++ [rule])).
Proof. done. Qed.

End Facts.
End SpecFacts.

(** ** The validators *)

Module ValidationFacts.
Import JS Validation Views.

(** *** Own and inherited keys *)

Lemma has_key_false (col : string) (r : Row) : has_key col r = false ↔ lacks r col.
Proof.
  unfold has_key, inherited, lacks.
  rewrite orb_false_iff, !bool_decide_eq_false, <-eq_None_not_Some. done.
Qed.

Lemma get_missing (col : string) (r : Row) : has_key col r = false → get r col = VUndefined.
Proof.
  intros [Hown Hproto]%has_key_false. unfold get, inherited.
  by rewrite Hown, bool_decide_eq_false_2.
Qed.

Lemma get_not_own (col : string) (r : Row) :
  r !! col = None → get r col = VUndefined ∨ get r col = VBuiltin col.
Proof. unfold get. intros ->. destruct (inherited col); auto. Qed.


(** *** Loops *)

Lemma forEach_from_ind {A St : Type} (Inv : nat → St → Prop)
    (body : A → nat → St → St) (xs : list A) (i : nat) (st : St) :
  Inv i st →
  (∀ x k s, x ∈ xs → Inv k s → Inv (S k) (body x k s)) →
  Inv (i + length xs) (forEach_from i body xs st).
Proof.
  revert i st. induction xs as [|x xs IH]; intros i st Hst Hbody; simpl.
  - by rewrite Nat.add_0_r.
  - replace (i + S (length xs)) with (S i + length xs) by lia.
    apply IH.
    + apply Hbody; [left|done].
    + intros y k s Hy. apply Hbody. by right.
Qed.

Lemma forEach_from_ext {A St : Type} (body1 body2 : A → nat → St → St)
    (xs : list A) (i : nat) (st : St) :
  (∀ x k s, body1 x k s = body2 x k s) →
  forEach_from i body1 xs st = forEach_from i body2 xs st.
Proof.
  intros Hext. revert i st.
  induction xs as [|x xs IH]; intros i st; simpl; [done|]. by rewrite Hext, IH.
Qed.

(** A loop whose body only pushes: the result is what each element
    pushes, in the order of the elements. *)
Lemma forEach_from_emit {A B : Type} (emit : A → nat → list B)
    (body : A → nat → list B → list B) (xs : list A) (i : nat) (st : list B) :
  (∀ x k s, body x k s = s ++ emit x k) →
  forEach_from i body xs st = st ++ mjoin (imap (λ k x, emit x (i + k)) xs).
Proof.
  intros Hbody. revert i st.
  induction xs as [|x xs IH]; intros i st; simpl.
  - by rewrite app_nil_r.
  - rewrite IH, Hbody, Nat.add_0_r, <-app_assoc. do 3 f_equal.
    apply imap_ext. intros k y _. simpl. f_equal. lia.
Qed.

Lemma forEach_emit {A B : Type} (emit : A → nat → list B)
    (body : A → nat → list B → list B) (xs : list A) :
  (∀ x k s, body x k s = s ++ emit x k) →
  forEach body xs [] = mjoin (imap (λ k x, emit x k) xs).
Proof.
  intros Hbody. unfold forEach. by rewrite (forEach_from_emit emit).
Qed.

Lemma elem_of_join_imap {A B : Type} (f : nat → A → list B) (xs : list A) (e : B) :
  e ∈ mjoin (imap f xs) ↔ ∃ i x, xs !! i = Some x ∧ e ∈ f i x.
Proof.
  rewrite list_elem_of_join. split.
  - intros (l & He & Hl). apply elem_of_lookup_imap in Hl as (i & x & -> & Hx). eauto.
  - intros (i & x & Hx & He). exists (f i x). split; [done|].
    apply elem_of_lookup_imap. eauto.
Qed.

(** *** Row order *)

Lemma ordered_upto_nil n : ordered_upto n [].
Proof. split; constructor. Qed.

Lemma ordered_upto_mono n m errs : n ≤ m → ordered_upto n errs → ordered_upto m errs.
Proof.
  intros Hnm [Hsorted Hle]. split; [done|].
  eapply Forall_impl; [done|]. simpl. lia.
Qed.

Lemma ordered_upto_push n m errs e :
  ordered_upto n errs → n ≤ row e → row e ≤ m → ordered_upto m (push errs e).
Proof.
  intros [Hsorted Hle] Hn Hm. unfold push. split.
  - rewrite fmap_app. apply StronglySorted_app_2.
    + intros x1 x2 Hx1 Hx2. apply list_elem_of_fmap in Hx1 as (e1 & -> & He1).
      apply list_elem_of_singleton in Hx2 as ->.
      rewrite Forall_forall in Hle. specialize (Hle e1 He1). lia.
    + done.
    + repeat constructor.
  - apply Forall_app. split.
    + eapply Forall_impl; [done|]. simpl. lia.
    + by constructor.
Qed.

Lemma ordered_upto_row_ordered n errs : ordered_upto n errs → row_ordered errs.
Proof. by intros []. Qed.

(** A loop over the rows that pushes, at index [k], only errors of row
    [k + 1], leaves the errors in row order. *)
Lemma forEach_ordered {A : Type} (body : A → nat → list ValidationError → list ValidationError)
    (xs : list A) :
  (∀ x k s, ordered_upto k s → ordered_upto (S k) (body x k s)) →
  row_ordered (forEach body xs []).
Proof.
  intros Hbody. eapply ordered_upto_row_ordered.
  apply (forEach_from_ind ordered_upto); [apply ordered_upto_nil|]. eauto.
Qed.

(** An inner loop that pushes only errors of row [k + 1]. *)
Lemma forEach_inner_ordered {A : Type} k
    (body : A → nat → list ValidationError → list ValidationError) (xs : list A) s :
  (∀ x j s, ordered_upto (S k) s → ordered_upto (S k) (body x j s)) →
  ordered_upto k s → ordered_upto (S k) (forEach body xs s).
Proof.
  intros Hbody Hs.
  apply (forEach_from_ind (λ _, ordered_upto (S k))); [|eauto].
  eapply ordered_upto_mono; [|done]. lia.
Qed.

(** *** Texts as lists of characters *)

Lemma includes_chars (c : ascii) (s : string) : includes c s = true ↔ c ∈ Spec.chars s.
Proof.
  unfold Spec.chars. induction s as [|d s IH]; simpl.
  - split; [done|]. by intros ?%elem_of_nil.
  - rewrite orb_true_iff, bool_decide_eq_true, IH, elem_of_cons.
    split; intros [?|?]; auto.
Qed.

Lemma includes_false (c : ascii) (s : string) : includes c s = false ↔ c ∉ Spec.chars s.
Proof. rewrite <-includes_chars. by destruct (includes c s). Qed.

Lemma indexOf_first (c : ascii) (s : string) (pre post : list ascii) :
  Spec.chars s = pre ++ c :: post → c ∉ pre → indexOf c s = Some (length pre).
Proof.
  unfold Spec.chars. revert s.
  induction pre as [|a pre IH]; intros [|d s] Hs Hpre; simplify_eq/=.
  - by rewrite bool_decide_eq_true_2.
  - apply not_elem_of_cons in Hpre as [Hne Hpre].
    rewrite bool_decide_eq_false_2 by done. by rewrite (IH s).
Qed.

Lemma lastIndexOf_none (c : ascii) (s : string) :
  c ∉ Spec.chars s → lastIndexOf c s = None.
Proof.
  unfold Spec.chars. induction s as [|d s IH]; simpl; [done|].
  intros [Hne Hnot]%not_elem_of_cons. rewrite IH by done.
  by rewrite bool_decide_eq_false_2.
Qed.

Lemma lastIndexOf_last (c : ascii) (s : string) (pre post : list ascii) :
  Spec.chars s = pre ++ c :: post → c ∉ post → lastIndexOf c s = Some (length pre).
Proof.
  revert s. induction pre as [|a pre IH]; intros [|d s] Hs Hpost;
    unfold Spec.chars in Hs; simplify_eq/=.
  - rewrite lastIndexOf_none by done. by rewrite bool_decide_eq_true_2.
  - by rewrite (IH s).
Qed.

Lemma substring_prefix (mid post : list ascii) (s : string) :
  Spec.chars s = mid ++ post →
  String.substring 0 (length mid) s = string_of_list_ascii mid.
Proof.
  unfold Spec.chars. revert s. induction mid as [|a mid IH]; intros s Hs; simpl.
  - by destruct s.
  - destruct s as [|d s]; simplify_eq/=. by rewrite (IH s).
Qed.

Lemma substring_chars (pre mid post : list ascii) (s : string) :
  Spec.chars s = pre ++ mid ++ post →
  String.substring (length pre) (length mid) s = string_of_list_ascii mid.
Proof.
  revert s. induction pre as [|a pre IH]; intros s Hs.
  - by apply (substring_prefix mid post).
  - destruct s as [|d s]; unfold Spec.chars in Hs; simplify_eq/=. by apply IH.
Qed.

(** The parsed text exists for every cell text. *)
Lemma json_candidate_total (s : string) : ∃ t, Spec.json_candidate s t.
Proof.
  destruct (decide ("{"%char ∈ Spec.chars s)) as [Hopen|Hopen];
    [|exists s; constructor; by left].
  destruct (decide ("}"%char ∈ Spec.chars s)) as [Hclose|Hclose];
    [|exists s; constructor; by right].
  apply list_elem_of_split_l in Hopen as (pre & after & Hs & Hpre).
  apply list_elem_of_split_r in Hclose as (before & post & Hs' & Hpost).
  assert (Heq : pre ++ "{"%char :: after = before ++ "}"%char :: post) by congruence.
  apply app_eq_inv in Heq as [(k & Hk1 & Hk2)|(k & Hk1 & Hk2)].
  - destruct k as [|a mid]; simplify_eq/=.
    exists (string_of_list_ascii mid).
    apply (Spec.candidate_between s before mid after).
    + rewrite Hs. by rewrite <-app_assoc.
    + intros Hin. apply Hpre. apply elem_of_app. by left.
    + intros Hin. apply Hpre. apply elem_of_app. right. by right.
    + intros Hin. apply Hpost. apply elem_of_app. by left.
    + intros Hin. apply Hpost. apply elem_of_app. right. by right.
  - destruct k as [|a body]; simplify_eq/=.
    exists (string_of_list_ascii ("{"%char :: body ++ ["}"%char])).
    by apply (Spec.candidate_braces s pre body post).
Qed.



(** Rows flagged one error each come out in strictly increasing row
    order. *)
Lemma flagged_rows_increasing (cond : Row → bool) (col msg : string) (rows : list Row)
    (k : nat) :
  StronglySorted Nat.lt
    (row <$> mjoin (imap (λ i r, if cond r then [mkError (k + i + 1) col msg error] else [])
                      rows))
  ∧ Forall (λ e, k < row e)
      (mjoin (imap (λ i r, if cond r then [mkError (k + i + 1) col msg error] else []) rows)).
Proof.
  revert k. induction rows as [|r rows IH]; intros k; [by split; constructor|].
  rewrite imap_cons.
  rewrite (imap_ext _ (λ i r, if cond r then [mkError (S k + i + 1) col msg error] else []))
    by (intros i x _; simpl; destruct (cond x); [|done]; do 2 f_equal; lia).
  destruct (IH (S k)) as [Hsorted Hall]. cbn [mjoin].
  assert (Hall' : Forall (λ e, k < row e)
            (mjoin (imap (λ i r, if cond r then [mkError (S k + i + 1) col msg error] else [])
                      rows))).
  { eapply Forall_impl; [done|]. simpl. lia. }
  destruct (cond r); [|done]. simpl. split.
  - constructor; [done|]. apply Forall_fmap. eapply Forall_impl; [exact Hall|].
    simpl. lia.
  - constructor; [simpl; lia|done].
Qed.

Section Facts.
Context `{Host}.

Lemma validateRequiredColumns_ordered rows required :
  row_ordered (validateRequiredColumns rows required).
Proof.
  unfold validateRequiredColumns, row_ordered.
  destruct rows as [|first rows]; [constructor|].
  destruct (filter _ required) as [|col missing]; [constructor|].
  rewrite <-list_fmap_compose.
  generalize (col :: missing) as cols. intros cols.
  induction cols as [|c cols IH]; simpl; constructor; [done|].
  apply Forall_fmap, Forall_forall. intros; simpl. lia.
Qed.

Lemma validateDuplicateIDs_ordered rows idCol :
  row_ordered (validateDuplicateIDs rows idCol).
Proof.
  unfold validateDuplicateIDs, forEach.
  eapply ordered_upto_row_ordered.
  apply (forEach_from_ind (λ k st, ordered_upto k (snd st))); [apply ordered_upto_nil|].
  intros x k [seen errs] _ Hs. simpl in *.
  case_bool_decide; simpl.
  - eapply ordered_upto_push; [done|simpl; lia..].
  - eapply ordered_upto_mono; [|done]. lia.
Qed.

(** The step shared by the validators that push at most one error per row. *)
Lemma ordered_upto_step (cond : bool) k s col msg :
  ordered_upto k s →
  ordered_upto (S k) (if cond then push s (mkError (k + 1) col msg error) else s).
Proof.
  intros Hs. destruct cond.
  - eapply ordered_upto_push; [done|simpl; lia..].
  - eapply ordered_upto_mono; [|done]. lia.
Qed.

Lemma validateNumericList_ordered rows col : row_ordered (validateNumericList rows col).
Proof.
  apply forEach_ordered. intros x k s Hs.
  destruct (truthy (get x col)); [by apply ordered_upto_step|].
  by apply (ordered_upto_step false _ _ "" "").
Qed.

Lemma validateRange_ordered rows col min max : row_ordered (validateRange rows col min max).
Proof. apply forEach_ordered. intros x k s Hs. by apply ordered_upto_step. Qed.

Lemma validateJSON_ordered rows col : row_ordered (validateJSON rows col).
Proof.
  unfold validateJSON. destruct rows as [|first rows]; [constructor|].
  destruct (negb (has_key col first)); [constructor|].
  apply forEach_ordered. intros x k s Hs.
  destruct (truthy (get x col)); [|by apply (ordered_upto_step false _ _ "" "")].
  destruct (JSON_parses _); [by apply (ordered_upto_step false _ _ "" "")|].
  by apply (ordered_upto_step true).
Qed.

Lemma validateGroupTags_ordered rows groupCol : row_ordered (validateGroupTags rows groupCol).
Proof. apply forEach_ordered. intros x k s Hs. by apply ordered_upto_step. Qed.

Lemma validateWorkerLoad_ordered rows : row_ordered (validateWorkerLoad rows).
Proof. apply forEach_ordered. intros x k s Hs. by apply ordered_upto_step. Qed.

Lemma validateReferences_ordered rows col validIDs delimiter :
  row_ordered (validateReferences rows col validIDs delimiter).
Proof.
  apply forEach_ordered. intros x k s Hs.
  destruct (truthy (get x col)); [|by apply (ordered_upto_step false _ _ "" "")].
  apply forEach_inner_ordered; [|done].
  intros id _ s' Hs'. destruct (_ && _); [|done].
  eapply ordered_upto_push; [done|simpl; lia..].
Qed.

Lemma validateSkillCoverage_ordered tasks workers :
  row_ordered (validateSkillCoverage tasks workers).
Proof.
  apply forEach_ordered. intros x k s Hs.
  apply forEach_inner_ordered; [|done].
  intros skill _ s' Hs'. destruct (_ && _); [|done].
  eapply ordered_upto_push; [done|simpl; lia..].
Qed.


(** *** The summary *)

Lemma Severity_tag_inj t1 t2 : Severity_tag t1 = Severity_tag t2 → t1 = t2.
Proof. by destruct t1, t2. Qed.

Lemma summarize_from (acc : gmap string nat) (errs : list ValidationError) (k : string) :
  let c := length (filter (λ e, Severity_tag (type e) = k) errs) in
  foldl (λ acc e,
           <[ Severity_tag (type e) := default 0 (acc !! Severity_tag (type e)) + 1 ]> acc)
    acc errs !! k
  = if c =? 0 then acc !! k else Some (default 0 (acc !! k) + c).
Proof.
  revert acc. induction errs as [|e errs IH]; intros acc; simpl; [done|].
  rewrite IH. clear IH.
  destruct (decide (Severity_tag (type e) = k)) as [Hk|Hk].
  - rewrite filter_cons_True by done. subst k. rewrite lookup_insert_eq. simpl.
    destruct (length _); simpl; f_equal; lia.
  - rewrite filter_cons_False by done. by rewrite lookup_insert_ne.
Qed.

Lemma summarize_counts (errs : list ValidationError) : counts errs (summarize errs).
Proof.
  unfold counts, summarize, count_of. split.
  - intros t. rewrite summarize_from. simpl. rewrite lookup_empty. simpl.
    rewrite (list_filter_iff _ (λ e, type e = t)); [done|].
    intros e. split; [apply Severity_tag_inj|by intros ->].
  - intros k Hk. rewrite summarize_from. simpl. rewrite lookup_empty.
    replace (filter _ errs) with (@nil ValidationError); [done|].
    symmetry. induction errs as [|e errs IH]; [done|].
    rewrite filter_cons_False; [done|]. intros Heq. by apply (Hk (type e)).
Qed.

(** *** The pipelines *)

Lemma clientErrors_pipeline clients tasks :
  clientErrors clients tasks = mjoin (clientPipeline clients tasks).
Proof. unfold clientErrors, clientPipeline. simpl. by rewrite app_nil_r. Qed.

Lemma workerErrors_pipeline workers : workerErrors workers = mjoin (workerPipeline workers).
Proof. unfold workerErrors, workerPipeline. simpl. by rewrite app_nil_r. Qed.

Lemma taskErrors_pipeline tasks workers :
  taskErrors tasks workers = mjoin (taskPipeline tasks workers).
Proof. unfold taskErrors, taskPipeline. simpl. by rewrite app_nil_r. Qed.

Lemma clientPipeline_ordered clients tasks : Forall row_ordered (clientPipeline clients tasks).
Proof.
  repeat constructor;
    auto using validateRequiredColumns_ordered, validateDuplicateIDs_ordered,
      validateRange_ordered, validateJSON_ordered, validateGroupTags_ordered,
      validateReferences_ordered.
Qed.

Lemma workerPipeline_ordered workers : Forall row_ordered (workerPipeline workers).
Proof.
  repeat constructor;
    auto using validateRequiredColumns_ordered, validateDuplicateIDs_ordered,
      validateNumericList_ordered, validateWorkerLoad_ordered, validateGroupTags_ordered.
Qed.

Lemma taskPipeline_ordered tasks workers : Forall row_ordered (taskPipeline tasks workers).
Proof.
  repeat constructor;
    auto using validateRequiredColumns_ordered, validateDuplicateIDs_ordered,
      validateRange_ordered, validateSkillCoverage_ordered.
Qed.

Lemma no_length_true xs : no_length xs = true ↔ empty_or_absent xs.
Proof.
  unfold empty_or_absent. destruct xs as [[|x xs]|]; simpl; split; auto.
  - intros ?; discriminate.
  - by intros [|].
Qed.

Lemma validateAll_guard d :
  no_length (clients d) || no_length (workers d) || no_length (tasks d) = true →
  validateAll d = mkResults empty_result empty_result empty_result.
Proof. unfold validateAll. by intros ->. Qed.

Lemma validateAll_run d :
  no_length (clients d) || no_length (workers d) || no_length (tasks d) = false →
  let cs := default [] (clients d) in
  let ws := default [] (workers d) in
  let ts := default [] (tasks d) in
  validateAll d =
    mkResults
      (mkResult (clientErrors cs ts) (summarize (clientErrors cs ts)))
      (mkResult (workerErrors ws) (summarize (workerErrors ws)))
      (mkResult (taskErrors ts ws) (summarize (taskErrors ts ws))).
Proof. unfold validateAll. by intros ->. Qed.

(** C3. If one of the three datasets is empty or absent, [validateAll]
    returns the three empty results, whatever the other datasets hold; if
    all three are non-empty, each result holds the errors of its pipeline
    of validators and their summary. *)
Theorem C3_validateAll_gate (d : Datasets) :
  (empty_or_absent (clients d) ∨ empty_or_absent (workers d) ∨ empty_or_absent (tasks d) →
   validateAll d = mkResults (mkResult [] ∅) (mkResult [] ∅) (mkResult [] ∅))
  ∧ (∀ c cs w ws t ts,
       clients d = Some (c :: cs) → workers d = Some (w :: ws) → tasks d = Some (t :: ts) →
       let r := validateAll d in
       errors (clients_result r) = mjoin (clientPipeline (c :: cs) (t :: ts)) ∧
       errors (workers_result r) = mjoin (workerPipeline (w :: ws)) ∧
       errors (tasks_result r) = mjoin (taskPipeline (t :: ts) (w :: ws)) ∧
       summary (clients_result r) = summarize (errors (clients_result r)) ∧
       summary (workers_result r) = summarize (errors (workers_result r)) ∧
       summary (tasks_result r) = summarize (errors (tasks_result r))).
Proof.
  split.
  - intros Hempty. apply validateAll_guard.
    rewrite !orb_true_iff, !no_length_true. tauto.
  - intros c cs w ws t ts Hc Hw Ht r. subst r.
    rewrite validateAll_run by (by rewrite Hc, Hw, Ht).
    rewrite Hc, Hw, Ht.
    cbn [default errors summary clients_result workers_result tasks_result].
    auto 10 using clientErrors_pipeline, workerErrors_pipeline, taskErrors_pipeline.
Qed.

(** C8. Two runs of [validateAll] on the same datasets give the same
    three results; when the pipelines run, each error list is the
    concatenation of its validators' contributions in pipeline order; each
    contribution is in row order; and each summary holds, per type, the
    number of errors of that type. *)
Theorem C8_validateAll_deterministic (d : Datasets) (first second : Results) :
  first = validateAll d → second = validateAll d →
  first = second
  ∧ (no_length (clients d) || no_length (workers d) || no_length (tasks d) = false →
     let cs := default [] (clients d) in
     let ws := default [] (workers d) in
     let ts := default [] (tasks d) in
     (errors (clients_result first) = mjoin (clientPipeline cs ts)
      ∧ Forall row_ordered (clientPipeline cs ts))
     ∧ (errors (workers_result first) = mjoin (workerPipeline ws)
        ∧ Forall row_ordered (workerPipeline ws))
     ∧ (errors (tasks_result first) = mjoin (taskPipeline ts ws)
        ∧ Forall row_ordered (taskPipeline ts ws)))
  ∧ counts (errors (clients_result first)) (summary (clients_result first))
  ∧ counts (errors (workers_result first)) (summary (workers_result first))
  ∧ counts (errors (tasks_result first)) (summary (tasks_result first)).
Proof.
  intros -> ->. split; [done|]. split.
  - intros Hrun cs ws ts. subst cs ws ts. rewrite (validateAll_run d Hrun).
    cbn [errors clients_result workers_result tasks_result].
    auto 10 using clientErrors_pipeline, workerErrors_pipeline, taskErrors_pipeline,
      clientPipeline_ordered, workerPipeline_ordered, taskPipeline_ordered.
  - destruct (no_length (clients d) || no_length (workers d) || no_length (tasks d)) eqn:Hg.
    + rewrite (validateAll_guard d Hg). simpl.
      pose proof (summarize_counts []) as Hc. auto.
    + rewrite (validateAll_run d Hg). simpl. auto using summarize_counts.
Qed.


(** *** Validators that push at most one error per row *)

Lemma one_per_row (cond : Row → bool) (col msg : string) (rows : list Row) :
  forEach
    (λ r i errors,
       if cond r then push errors (mkError (i + 1) col msg error) else errors)
    rows []
  = mjoin (imap (λ i r, if cond r then [mkError (i + 1) col msg error] else []) rows).
Proof.
  apply (forEach_emit (λ r i, if cond r then [mkError (i + 1) col msg error] else [])).
  intros r k s. destruct (cond r); [done|]. by rewrite app_nil_r.
Qed.

Lemma one_per_row_at (cond : Row → bool) (col msg : string) (rows : list Row) (i : nat) :
  (∃ e, e ∈ mjoin (imap (λ i r, if cond r then [mkError (i + 1) col msg error] else []) rows)
        ∧ row e = i + 1)
  ↔ ∃ r, rows !! i = Some r ∧ cond r = true.
Proof.
  split.
  - intros (e & He & Hrow). apply elem_of_join_imap in He as (k & r & Hr & He).
    destruct (cond r) eqn:Hcond; [|by apply elem_of_nil in He].
    apply list_elem_of_singleton in He as ->. simpl in Hrow.
    assert (k = i) as -> by lia. eauto.
  - intros (r & Hr & Hcond). exists (mkError (i + 1) col msg error). split; [|done].
    apply elem_of_join_imap. exists i, r. split; [done|].
    rewrite Hcond. by apply list_elem_of_singleton.
Qed.





Lemma validateJSON_rows (first : Row) (rest : list Row) (col : string) :
  has_key col first = true →
  validateJSON (first :: rest) col =
    mjoin (imap
      (λ i r,
         if truthy (get r col) && negb (JSON_parses (json_text (get r col)))
         then [mkError (i + 1) col ("Malformed JSON in " +:+ col) error]
         else [])
      (first :: rest)).
Proof.
  intros Hkey. unfold validateJSON. rewrite Hkey. cbn [negb].
  rewrite <-(one_per_row
    (λ r, truthy (get r col) && negb (JSON_parses (json_text (get r col))))).
  apply forEach_from_ext. intros r k s.
  by destruct (truthy (get r col)), (JSON_parses (json_text (get r col))).
Qed.

(** The text [validateJSON] parses is the one the wording describes. *)
Lemma json_candidate_text (v : value) (t : string) :
  Spec.json_candidate (String_ v) t → json_text v = t.
Proof.
  unfold json_text. generalize (String_ v) as s. intros s Hcand.
  destruct Hcand as [Hnone|pre body post Hs Hpre Hpost|pre mid post Hs Hpre Hmid Hmid' Hpost].
  - destruct Hnone as [Hnone|Hnone]; apply includes_false in Hnone; rewrite Hnone;
      [done|by rewrite andb_false_r].
  - assert (Hopen : includes "{" s = true).
    { apply includes_chars. rewrite Hs. apply elem_of_app. right. by left. }
    assert (Hclose : includes "}" s = true).
    { apply includes_chars. rewrite Hs. apply elem_of_app. right. right.
      apply elem_of_app. right. by left. }
    rewrite Hopen, Hclose. cbn [andb].
    rewrite (indexOf_first _ s pre (body ++ "}"%char :: post)) by done.
    rewrite (lastIndexOf_last _ s (pre ++ "{"%char :: body) post)
      by first [done|by rewrite Hs, <-app_assoc].
    unfold substring.
    replace (length pre `min` (length (pre ++ "{"%char :: body) + 1)) with (length pre)
      by (rewrite length_app; simpl; lia).
    replace (length pre `max` (length (pre ++ "{"%char :: body) + 1) - length pre)
      with (length ("{"%char :: body ++ ["}"%char]))
      by (rewrite length_app; simpl; rewrite length_app; simpl; lia).
    apply (substring_chars pre _ post). rewrite Hs. simpl. by rewrite <-app_assoc.
  - assert (Hopen : includes "{" s = true).
    { apply includes_chars. rewrite Hs. apply elem_of_app. right. right.
      apply elem_of_app. right. by left. }
    assert (Hclose : includes "}" s = true).
    { apply includes_chars. rewrite Hs. apply elem_of_app. right. by left. }
    rewrite Hopen, Hclose. cbn [andb].
    rewrite (indexOf_first _ s (pre ++ "}"%char :: mid) post).
    + rewrite (lastIndexOf_last _ s pre (mid ++ "{"%char :: post)).
      * unfold substring.
        replace (length (pre ++ "}"%char :: mid) `min` (length pre + 1))
          with (length (pre ++ ["}"%char])) by (rewrite !length_app; simpl; lia).
        replace (length (pre ++ "}"%char :: mid) `max` (length pre + 1)
                 - length (pre ++ ["}"%char]))
          with (length mid) by (rewrite !length_app; simpl; lia).
        apply (substring_chars _ mid ("{"%char :: post)).
        rewrite Hs. by rewrite <-app_assoc.
      * done.
      * intros [Hin|Hin]%elem_of_app; [done|].
        apply elem_of_cons in Hin as [Hin|Hin]; [done|done].
    + rewrite Hs. by rewrite <-app_assoc.
    + intros [Hin|Hin]%elem_of_app; [done|].
      apply elem_of_cons in Hin as [Hin|Hin]; [done|done].
Qed.

Lemma json_text_candidate (v : value) : Spec.json_candidate (String_ v) (json_text v).
Proof.
  destruct (json_candidate_total (String_ v)) as [t Ht].
  by rewrite (json_candidate_text v t Ht).
Qed.

(** C5, as the code has it. [validateJSON] returns no errors when the
    rows are empty or the first row lacks the column, whatever the later
    rows hold; when the column is in the first row, a row is reported, at
    its 1-based index, exactly when its value is truthy and the text
    parsed for it fails to parse; each reported row has one error, the
    errors come in row order, and each is the "Malformed JSON" error of
    its row. *)
Theorem C5_validateJSON_first_row (rows : list Row) (col : string) :
  (rows = [] ∨ (∃ first rest, rows = first :: rest ∧ lacks first col) →
   validateJSON rows col = [])
  ∧ (∀ first rest, rows = first :: rest → ¬ lacks first col →
     (∀ i, (∃ e, e ∈ validateJSON rows col ∧ row e = i + 1)
           ↔ ∃ r t, rows !! i = Some r ∧ truthy (get r col) = true
                    ∧ Spec.json_candidate (String_ (get r col)) t
                    ∧ JSON_parses t = false)
     ∧ StronglySorted Nat.lt (row <$> validateJSON rows col)
     ∧ Forall (λ e, 1 ≤ row e
                    ∧ e = mkError (row e) col ("Malformed JSON in " +:+ col) error)
         (validateJSON rows col)).
Proof.
  split.
  - intros [->|(first & rest & -> & Hkey)]; [done|].
    apply has_key_false in Hkey. unfold validateJSON. by rewrite Hkey.
  - intros first rest -> Hkey.
    assert (Hkey' : has_key col first = true).
    { apply not_false_is_true. by rewrite has_key_false. }
    rewrite validateJSON_rows by done. split; [|split].
    + intros i. rewrite one_per_row_at. split.
      * intros (r & Hr & Hcond). exists r, (json_text (get r col)).
        apply andb_true_iff in Hcond as [Ht Hp]. apply negb_true_iff in Hp.
        split; [done|]. split; [done|]. split; [apply json_text_candidate|done].
      * intros (r & t & Hr & Ht & Hcand & Hp). exists r.
        by rewrite (json_candidate_text _ _ Hcand), Ht, Hp.
    + apply (flagged_rows_increasing _ col ("Malformed JSON in " +:+ col)
               (first :: rest) 0).
    + apply Forall_forall. intros e He.
      apply elem_of_join_imap in He as (k & r & Hr & He).
      destruct (truthy (get r col) && negb (JSON_parses (json_text (get r col))));
        [|by apply elem_of_nil in He].
      apply list_elem_of_singleton in He as ->. simpl. split; [lia|done].
Qed.

End Facts.
End ValidationFacts.

(** ** The code at concrete inputs *)

Module Runs.
Import JS Validation Views Rules RulesFacts ValidationFacts.

(** C2 at [importRules([validRule, invalidRule])]: one rule failed, the
    store is as before; and at [importRules([validRule])]: the store holds
    the imported rule. *)
Lemma C2_importRules_atomic_witness :
  let st := mkState [slotRestriction "G" (of_Z 2)] in
  let rs := [coRun ["T1"; "T2"]; coRun ["T1"]] in
  let rs' := [coRun ["T1"; "T2"]] in
  Exists (λ rule, ¬ valid (H := Sample.host) rule) rs ∧
  importRules (H := Sample.host) rs st =
    (Thrown "Invalid rules found: 1 rules failed validation", st) ∧
  Forall (valid (H := Sample.host)) rs' ∧
  importRules (H := Sample.host) rs' st = (Returned tt, mkState [coRun ["T1"; "T2"]]).
Proof.
  intros st rs rs'.
  assert (Hex : Exists (λ rule, ¬ valid (H := Sample.host) rule) rs).
  { apply Exists_cons_tl, Exists_cons_hd. intros Hv. discriminate Hv. }
  assert (Hall : Forall (valid (H := Sample.host)) rs') by (repeat constructor).
  split; [exact Hex|].
  destruct (C2_importRules_atomic (H := Sample.host) rs st) as [Hbad _].
  destruct (Hbad Hex) as [_ Hthrow]. split; [exact Hthrow|].
  split; [exact Hall|].
  destruct (C2_importRules_atomic (H := Sample.host) rs' st) as [_ Hgood].
  exact (Hgood Hall).
Defined.

(** C3 with the workers absent. *)
Lemma C3_validateAll_gate_witness :
  let d := mkDatasets (Some [{[ "ClientID" := VString "C1" ]}]) None
             (Some [{[ "TaskID" := VString "T1" ]}]) in
  empty_or_absent (workers d) ∧
  validateAll (H := Sample.host) d = mkResults (mkResult [] ∅) (mkResult [] ∅) (mkResult [] ∅).
Proof.
  intros d.
  assert (Habsent : empty_or_absent (workers d)) by (by left).
  split; [exact Habsent|].
  destruct (C3_validateAll_gate (H := Sample.host) d) as [Hgate _].
  apply Hgate. right. left. exact Habsent.
Defined.

(** C5 as claimed fails here: the first row lacks the column, the second
    holds a truthy value that does not parse, and no error is emitted, so
    "no errors" does not mean "no row has the column", and the later row is
    not reported. *)
Lemma C5_validateJSON_counterexample :
  let col := "AttributesJSON" in
  let rows : list Row := [∅; {[ col := VString "{bad" ]}] in
  validateJSON (H := Sample.host) rows col = []
  ∧ ¬ Forall (λ r, lacks r col) rows
  ∧ ∃ r t, rows !! 1 = Some r ∧ ¬ lacks r col ∧ truthy (get r col) = true
           ∧ Spec.json_candidate (String_ (H := Sample.host) (get r col)) t
           ∧ JSON_parses (Host := Sample.host) t = false.
Proof.
  intros col rows. split; [reflexivity|]. split.
  - intros Hall. apply Forall_cons_1 in Hall as [_ Hall].
    apply Forall_cons_1 in Hall as [[Hown _] _]. vm_compute in Hown. discriminate Hown.
  - exists {[ col := VString "{bad" ]}, "{bad". split; [reflexivity|]. split.
    + intros [Hown _]. vm_compute in Hown. discriminate Hown.
    + split; [reflexivity|]. split; [|reflexivity].
      apply (Spec.candidate_whole "{bad"). right.
      intros Hin. vm_compute in Hin. set_unfold. intuition discriminate.
Qed.

(** C5 as amended, on rows whose first row has the column: the second
    row holds a text whose part between the first opening and the last
    closing brace does not parse, and is reported. *)
Lemma C5_validateJSON_first_row_witness :
  let col := "AttributesJSON" in
  let first : Row := {[ col := VString "{}" ]} in
  let rest : list Row := [{[ col := VString "x{{}y" ]}] in
  ¬ lacks first col
  ∧ Spec.json_candidate "x{{}y" "{{}"
  ∧ ∃ e, e ∈ validateJSON (H := Sample.host) (first :: rest) col ∧ row e = 1 + 1.
Proof.
  intros col first rest.
  assert (Hkey : ¬ lacks first col).
  { intros [Hown _]. vm_compute in Hown. discriminate Hown. }
  assert (Hopen : "{"%char ∉ ["x"%char]).
  { intros Hin. apply list_elem_of_singleton in Hin. discriminate Hin. }
  assert (Hclose : "}"%char ∉ ["y"%char]).
  { intros Hin. apply list_elem_of_singleton in Hin. discriminate Hin. }
  assert (Hcand : Spec.json_candidate "x{{}y" "{{}")
    by exact (Spec.candidate_braces "x{{}y" ["x"%char] ["{"%char] ["y"%char]
                eq_refl Hopen Hclose).
  split; [exact Hkey|]. split; [exact Hcand|].
  destruct (C5_validateJSON_first_row (H := Sample.host) (first :: rest) col) as [_ Hrun].
  destruct (Hrun first rest eq_refl Hkey) as [Hrows _].
  apply (Hrows 1). exists {[ col := VString "x{{}y" ]}, "{{}".
  split; [reflexivity|]. split; [reflexivity|]. split; [exact Hcand|reflexivity].
Defined.


(** C7 on a store of two rules. *)
Lemma C7_export_import_roundtrip_witness :
  let st := mkState [coRun ["T1"; "T2"]; phaseWindow "T1" [of_Z 1; of_Z 2]] in
  let now := "2025-01-01T00:00:00.000Z" in
  Forall (valid (H := Sample.host)) (rules st) ∧
  (ex ← exportRules now; clearRules;; importRules (H := Sample.host) (exported_rules ex)) st
    = (Returned tt, st).
Proof.
  intros st now.
  assert (Hall : Forall (valid (H := Sample.host)) (rules st))
    by (repeat constructor).
  split; [exact Hall|].
  destruct (C7_export_import_roundtrip (H := Sample.host) now st Hall) as [_ Hround].
  exact Hround.
Defined.

(** C8 on three one-row datasets. *)
Lemma C8_validateAll_deterministic_witness :
  let d := mkDatasets
             (Some [{[ "ClientID" := VString "C1"; "PriorityLevel" := VString "6" ]}])
             (Some [{[ "WorkerID" := VString "W1" ]}])
             (Some [{[ "TaskID" := VString "T1" ]}]) in
  validateAll (H := Sample.host) d = validateAll (H := Sample.host) d
  ∧ counts (Validation.errors (clients_result (validateAll (H := Sample.host) d)))
      (summary (clients_result (validateAll (H := Sample.host) d))).
Proof.
  intros d.
  destruct (C8_validateAll_deterministic (H := Sample.host) d _ _ eq_refl eq_refl)
    as (Hsame & _ & Hcounts & _).
  split; [exact Hsame|exact Hcounts].
Defined.

(** C9 on a store that held another rule. *)
Lemma C9_importRules_replaces_witness :
  let st := mkState [slotRestriction "G" (of_Z 2)] in
  let rs := [coRun ["T1"; "T2"]] in
  Forall (valid (H := Sample.host)) rs ∧
  importRules (H := Sample.host) rs st = (Returned tt, mkState rs).
Proof.
  intros st rs.
  assert (Hall : Forall (valid (H := Sample.host)) rs) by (repeat constructor).
  split; [exact Hall|].
  destruct (C9_importRules_replaces (H := Sample.host) rs st st Hall) as [Himport _].
  exact Himport.
Defined.

(** C10 at index 5 of a one-rule store. *)
Lemma C10_updateRule_out_of_range_witness :
  let st := mkState [slotRestriction "G" (of_Z 2)] in
  let rule := coRun ["T1"; "T2"] in
  valid (H := Sample.host) rule ∧ in_range (of_Z 5) (length (rules st)) = false ∧
  updateRule (H := Sample.host) (of_Z 5) rule st = (Returned tt, st).
Proof.
  intros st rule.
  assert (Hv : valid (H := Sample.host) rule) by reflexivity.
  assert (Hout : in_range (of_Z 5) (length (rules st)) = false) by (by vm_compute).
  split; [exact Hv|]. split; [exact Hout|].
  destruct (C10_updateRule_out_of_range (H := Sample.host) (of_Z 5) rule st) as [Hnoop _].
  exact (Hnoop Hv Hout).
Defined.

(** The store on the rules the specification tries. *)
Example addRule_coRun_two_tasks :
  addRule (H := Sample.host) (coRun ["T1"; "T2"]) (mkState [loadLimit "G" (of_Z 3)])
  = (Returned tt, mkState [loadLimit "G" (of_Z 3); coRun ["T1"; "T2"]]).
Proof. reflexivity. Qed.

Example addRule_unclosed_regex_sample :
  addRule (H := Sample.host) (patternMatch "(unclosed" "t" ∅) initial
  = (Thrown "Invalid rule: Invalid regex pattern", initial).
Proof. reflexivity. Qed.

Example addRule_lists_all_errors :
  addRule (H := Sample.host) (phaseWindow " " []) initial
  = (Thrown
       ("Invalid rule: Phase window rule must have a task, " +:+
        "Phase window rule must have at least one allowed phase"), initial).
Proof. reflexivity. Qed.

Example deleteRule_middle :
  deleteRule (of_Z 1) (mkState [coRun ["a"; "b"]; loadLimit "g" (of_Z 1); coRun ["c"; "d"]])
  = (Returned tt, mkState [coRun ["a"; "b"]; coRun ["c"; "d"]]).
Proof. by vm_compute. Qed.

(** The validators on the rows the specification tries. *)
Example duplicate_ids_third_row :
  validateDuplicateIDs (H := Sample.host)
    [{[ "ClientID" := VString "C1" ]}; {[ "ClientID" := VString "C2" ]};
     {[ "ClientID" := VString "C1" ]}] "ClientID"
  = [mkError 3 "ClientID" "Duplicate ID: C1" error].
Proof. by vm_compute. Qed.

Example priority_level_range :
  validateRange (H := Sample.host)
    [{[ "PriorityLevel" := VString "6" ]}; {[ "PriorityLevel" := VString "5" ]}]
    "PriorityLevel" (of_Z 1) (of_Z 5)
  = [mkError 1 "PriorityLevel" "Value out of range (1-5) in PriorityLevel" error].
Proof. by vm_compute. Qed.

Example unknown_reference :
  validateReferences (H := Sample.host) [{[ "RequestedTaskIDs" := VString "T1,T9" ]}]
    "RequestedTaskIDs" {[ VString "T1" ]} comma_or_semicolon
  = [mkError 1 "RequestedTaskIDs" "Unknown reference: T9" error].
Proof. by vm_compute. Qed.

Example worker_load_numeric :
  validateWorkerLoad (H := Sample.host)
    [{[ "AvailableSlots" := VString "1,2"; "MaxLoadPerPhase" := VString "3" ]};
     {[ "AvailableSlots" := VString "1;2"; "MaxLoadPerPhase" := VString "2" ]}]
  = [mkError 1 "AvailableSlots" "Worker overloaded: AvailableSlots < MaxLoadPerPhase" error].
Proof. by vm_compute. Qed.

Example json_text_cut :
  json_text (H := Sample.host) (VString "xx{a}yy}zz") = "{a}yy}".
Proof. reflexivity. Qed.

Example json_text_between :
  json_text (H := Sample.host) (VString "a}b{c") = "b".
Proof. reflexivity. Qed.

(** A name every row inherits is never a missing column, and reading it
    gives the inherited function. *)
Example required_inherited_name :
  validateRequiredColumns [(∅ : Row)] ["toString"; "ClientID"]
  = [mkError 0 "ClientID" "Missing required column: ClientID" error]
  ∧ get (∅ : Row) "toString" = VBuiltin "toString"
  ∧ get (∅ : Row) "ClientID" = VUndefined.
Proof. by vm_compute. Qed.

Example group_tag_inherited_name :
  validateGroupTags (H := Sample.host) [(∅ : Row)] "constructor" = []
  ∧ validateGroupTags (H := Sample.host) [(∅ : Row)] "GroupTag"
    = [mkError 1 "GroupTag" "Empty or invalid group tag" error].
Proof. by vm_compute. Qed.

End Runs.

(** ** More on the rule store *)

Module StoreFacts.
Import JS Rules RulesFacts.

Lemma strict_eq_of_nat (j i : nat) : strict_eq (of_nat j) (of_nat i) = bool_decide (j = i).
Proof.
  unfold strict_eq, of_nat, of_Z. apply bool_decide_ext. split.
  - intros Heq. assert (Hq : Qc_of_Z (Z.of_nat j) = Qc_of_Z (Z.of_nat i)) by congruence.
    apply Z2Qc_inj in Hq. lia.
  - by intros ->.
Qed.

Lemma filter_index_from_all {A : Type} (keep : nat → bool) (k : nat) (xs : list A) :
  (∀ j, k ≤ j < k + length xs → keep j = true) → filter_index_from k keep xs = xs.
Proof.
  revert k. induction xs as [|x xs IH]; intros k Hkeep; simpl; [done|].
  rewrite Hkeep by (simpl; lia). f_equal. apply IH. intros j Hj. apply Hkeep. simpl. lia.
Qed.

Lemma filter_index_from_ext {A : Type} (keep1 keep2 : nat → bool) (k : nat) (xs : list A) :
  (∀ j, keep1 j = keep2 j) → filter_index_from k keep1 xs = filter_index_from k keep2 xs.
Proof.
  intros Hext. revert k. induction xs as [|x xs IH]; intros k; simpl; [done|].
  by rewrite Hext, IH.
Qed.

Lemma filter_index_from_delete {A : Type} (k i : nat) (xs : list A) :
  filter_index_from k (λ j, negb (bool_decide (j = k + i))) xs = delete i xs.
Proof.
  revert k i. induction xs as [|x xs IH]; intros k i; simpl; [done|].
  destruct i as [|i].
  - rewrite Nat.add_0_r, bool_decide_eq_true_2 by done. simpl.
    apply filter_index_from_all. intros j Hj.
    apply negb_true_iff, bool_decide_eq_false. lia.
  - rewrite bool_decide_eq_false_2 by lia. simpl. f_equal.
    rewrite <-(IH (S k) i). apply filter_index_from_ext. intros j.
    by replace (S k + i) with (k + S i) by lia.
Qed.

Lemma imap_replace_insert (i : nat) (rule : Rule) (xs : list Rule) :
  imap (λ j r, if bool_decide (j = i) then rule else r) xs = <[i := rule]> xs.
Proof.
  revert i. induction xs as [|x xs IH]; intros i; [done|].
  rewrite imap_cons. destruct i as [|i]; simpl.
  - f_equal. rewrite <-(imap_no_match (λ j, bool_decide (S j = 0)) rule xs) at 2; [done|].
    intros j _. by apply bool_decide_eq_false.
  - f_equal. rewrite <-IH. apply imap_ext. intros j r _. simpl.
    by rewrite (bool_decide_ext (S j = S i) (j = i)) by lia.
Qed.

Section Facts.
Context `{Host}.

Lemma deleteRule_of_nat (st : RulesState) (i : nat) :
  deleteRule (of_nat i) st = (Returned tt, mkState (delete i (rules st))).
Proof.
  unfold deleteRule, set_state. do 2 f_equal.
  rewrite <-(filter_index_from_delete 0 i). apply filter_index_from_ext.
  intros j. by rewrite strict_eq_of_nat.
Qed.

(** X1. [deleteRule] at a position removes the rule at that position and
    keeps the others in order (nothing, when the position is past the
    end); at an index that is no position of the sequence (negative,
    fractional, NaN, too large) it leaves the store as it was.  It never
    throws. *)
Theorem deleteRule_removes_position (st : RulesState) :
  (∀ i, deleteRule (of_nat i) st = (Returned tt, mkState (delete i (rules st))))
  ∧ (∀ index, (∀ i, i < length (rules st) → index ≠ of_nat i) →
       deleteRule index st = (Returned tt, st)).
Proof.
  split; [apply deleteRule_of_nat|].
  intros index Hindex.
  - unfold deleteRule, set_state.
    rewrite filter_index_from_all, state_eta; [done|].
    intros j Hj. apply negb_true_iff, not_true_is_false. intros Heq.
    apply (Hindex j); [lia|].
    unfold strict_eq in Heq. destruct index as [| |q|]; try done.
    apply bool_decide_eq_true in Heq. by rewrite Heq.
Qed.

(** X2. [updateRule] with a valid rule at a position replaces the rule at
    that position and no other (none, when the position is past the end);
    whatever the index and the rule, the number of stored rules is
    unchanged. *)
Theorem updateRule_replaces_position (rule : Rule) (st : RulesState) :
  (∀ i, valid rule →
     updateRule (of_nat i) rule st = (Returned tt, mkState (<[i := rule]> (rules st))))
  ∧ (∀ index, length (rules (state_after (updateRule index rule) st)) = length (rules st)).
Proof.
  split.
  - intros i Hv. unfold updateRule, valid in *. rewrite Hv. cbn [negb].
    unfold set_state. do 2 f_equal. rewrite <-imap_replace_insert.
    apply imap_ext. intros j r _. cbn beta. by rewrite strict_eq_of_nat.
  - intros index. unfold state_after, updateRule.
    destruct (isValid (validateRule rule)); simpl; [|done]. by rewrite length_imap.
Qed.

(** X3. Adding a valid rule and then deleting the last position gives
    back the store as it was. *)
Theorem addRule_deleteRule_last (rule : Rule) (st : RulesState) :
  valid rule →
  (addRule rule;; deleteRule (of_nat (length (rules st)))) st = (Returned tt, st).
Proof.
  intros Hv. unfold mbind, Action_bind. rewrite addRule_valid by done.
  rewrite deleteRule_of_nat. cbn [rules].
  by rewrite delete_middle, app_nil_r, state_eta.
Qed.

Lemma run_all_adds (rs : list Rule) (st : RulesState) :
  run_all (OpAdd <$> rs) st = mkState (rules st ++ filter valid rs).
Proof.
  unfold run_all. revert st.
  induction rs as [|r rs IH]; intros st; simpl.
  - by rewrite app_nil_r, state_eta.
  - rewrite IH. unfold state_after. destruct (decide (valid r)) as [Hv|Hv].
    + rewrite addRule_valid, filter_cons_True by done. simpl. by rewrite <-app_assoc.
    + by rewrite addRule_invalid, filter_cons_False by done.
Qed.

(** X4. Adding rules one by one stores exactly the valid ones, in order,
    after the rules already there; and importing a list of valid rules
    leaves the store that clearing and then adding them one by one
    leaves. *)
Theorem adds_store_the_valid_rules (rs : list Rule) (st : RulesState) :
  run_all (OpAdd <$> rs) st = mkState (rules st ++ filter valid rs)
  ∧ (Forall valid rs →
     state_after (importRules rs) st = run_all (OpClear :: (OpAdd <$> rs)) st).
Proof.
  split; [apply run_all_adds|].
  intros Hall. unfold state_after. rewrite importRules_valid by done.
  change (run_all (OpClear :: (OpAdd <$> rs)) st)
    with (run_all (OpAdd <$> rs) (mkState [])).
  rewrite run_all_adds. simpl. f_equal. symmetry.
  induction Hall as [|r rs Hr _ IH]; [done|]. by rewrite filter_cons_True, IH.
Qed.

Lemma distinct_after_spec (seen xs : list string) :
  NoDup (distinct_after seen xs)
  ∧ ∀ x, x ∈ distinct_after seen xs ↔ x ∈ xs ∧ x ∉ seen.
Proof.
  revert seen. induction xs as [|y xs IH]; intros seen; simpl.
  - split; [constructor|]. intros x. split; [by intros ?%elem_of_nil|].
    by intros [?%elem_of_nil _].
  - case_bool_decide as Hy.
    + destruct (IH seen) as [Hnd Hin]. split; [done|].
      intros x. rewrite Hin, elem_of_cons. split; [tauto|].
      intros [[->|Hx] Hseen]; tauto.
    + destruct (IH (y :: seen)) as [Hnd Hin]. split.
      * constructor; [|done]. rewrite Hin, elem_of_cons. tauto.
      * intros x. rewrite elem_of_cons, Hin, !elem_of_cons.
        destruct (decide (x = y)) as [->|Hxy]; tauto.
Qed.

(** The six [type] tags. *)
Lemma type_among_six (rule : Rule) :
  type rule ∈ ["coRun"; "slotRestriction"; "loadLimit"; "phaseWindow"; "patternMatch";
               "precedenceOverride"].
Proof. destruct rule; simpl; rewrite !elem_of_cons; tauto. Qed.

(** X5. [exportRules] returns the stored sequence and leaves the store
    alone; its metadata carries the clock reading, the number of rules, and
    the [type] tags that occur among the rules, each once: at most six,
    and at most as many as there are rules. *)
Theorem exportRules_metadata (now : string) (st : RulesState) :
  ∃ ex,
    exportRules now st = (Returned ex, st)
    ∧ exported_rules ex = rules st
    ∧ generatedAt (metadata ex) = now
    ∧ totalRules (metadata ex) = length (rules st)
    ∧ NoDup (ruleTypes (metadata ex))
    ∧ (∀ t, t ∈ ruleTypes (metadata ex) ↔ ∃ rule, rule ∈ rules st ∧ type rule = t)
    ∧ length (ruleTypes (metadata ex)) ≤ 6
    ∧ length (ruleTypes (metadata ex)) ≤ length (rules st).
Proof.
  eexists. split; [reflexivity|]. simpl.
  destruct (distinct_after_spec [] (type <$> rules st)) as [Hnd Hin].
  assert (Hmem : ∀ t, t ∈ distinct_after [] (type <$> rules st) ↔
                      ∃ rule, rule ∈ rules st ∧ type rule = t).
  { intros t. rewrite Hin, list_elem_of_fmap. split.
    - intros [(rule & -> & Hr) _]. eauto.
    - intros (rule & Hr & <-). split; [eauto|apply not_elem_of_nil]. }
  repeat split; try done; try apply Hmem.
  - change 6 with (length ["coRun"; "slotRestriction"; "loadLimit"; "phaseWindow";
                           "patternMatch"; "precedenceOverride"]).
    apply submseteq_length, NoDup_submseteq; [done|].
    intros t (rule & _ & <-)%Hmem. apply type_among_six.
  - rewrite <-(length_fmap type). apply submseteq_length, NoDup_submseteq; [done|].
    intros t Ht. by apply Hin in Ht as [Ht _].
Qed.

Lemma push_if_zero (cond : bool) (msg : string) (errs : list string) :
  (length (push_if cond msg errs) =? 0) = true ↔ cond = false ∧ (length errs =? 0) = true.
Proof.
  unfold push_if. destruct cond.
  - rewrite length_app, Nat.eqb_eq. simpl. split; [lia|by intros []].
  - tauto.
Qed.

Lemma existsb_false {A : Type} (f : A → bool) (xs : list A) :
  existsb f xs = false ↔ ∀ x, x ∈ xs → f x = false.
Proof.
  induction xs as [|y xs IH]; simpl.
  - split; [|done]. by intros _ x ?%elem_of_nil.
  - rewrite orb_false_iff, IH. split.
    + intros [Hy Hxs] x [->|Hx]%elem_of_cons; auto.
    + intros Hall. split; [apply Hall; left|]. intros x Hx. apply Hall. by right.
Qed.

Lemma length_zero_false {A : Type} (xs : list A) : (length xs =? 0) = false ↔ xs ≠ [].
Proof. by destruct xs. Qed.

Lemma blank_false (s : string) : blank s = false ↔ trim s ≠ "".
Proof.
  unfold blank. destruct s as [|c s].
  - simpl. split; [done|]. intros Hne. by destruct Hne.
  - cbn [is_empty orb]. by destruct (trim (String c s)); simpl; split.
Qed.

Lemma below_one_false (n : number) : below_one n = false ↔ ge n (of_Z 1) = true.
Proof.
  unfold below_one. destruct n as [| |q|]; simpl; try done.
  unfold ge, lt, of_Z. rewrite negb_involutive, negb_true_iff, orb_false_iff.
  split; [by intros []|]. intros Hlt. split; [|done].
  apply bool_decide_eq_false. intros ->. by vm_compute in Hlt.
Qed.

(** X6. What [validateRule] accepts, variant by variant: a co-run rule
    with at least two tasks, none blank; a slot-restriction or load-limit
    rule with a non-blank group and a number that is [>= 1] (so not NaN);
    a phase-window rule with a non-blank task and at least one phase, none
    of them [< 1]; a pattern-match rule with non-blank regex and template
    whose regex compiles; a precedence-override rule with non-empty
    [global] and [specific] and a priority that is [>= 1]. *)
Theorem valid_iff :
  (∀ tasks, valid (coRun tasks) ↔ 2 ≤ length tasks ∧ ∀ task, task ∈ tasks → trim task ≠ "")
  ∧ (∀ group n, valid (slotRestriction group n) ↔ trim group ≠ "" ∧ ge n (of_Z 1) = true)
  ∧ (∀ group n, valid (loadLimit group n) ↔ trim group ≠ "" ∧ ge n (of_Z 1) = true)
  ∧ (∀ task phases,
       valid (phaseWindow task phases) ↔
       trim task ≠ "" ∧ phases ≠ [] ∧ ∀ phase, phase ∈ phases → lt phase (of_Z 1) = false)
  ∧ (∀ regex template params,
       valid (patternMatch regex template params) ↔
       trim regex ≠ "" ∧ trim template ≠ "" ∧ RegExp_compiles regex = true)
  ∧ (∀ global specific priority,
       valid (precedenceOverride global specific priority) ↔
       global ≠ [] ∧ specific ≠ [] ∧ ge priority (of_Z 1) = true).
Proof.
  unfold valid, validateRule. cbn [isValid].
  repeat split; intros; cbn beta iota in *;
    rewrite ?push_if_zero, ?blank_false, ?below_one_false, ?existsb_false,
      ?length_zero_false, ?negb_false_iff in *; simpl in *.
  all: try tauto.
  - assert ((length tasks <? 2) = false) as Hlen%Nat.ltb_ge by tauto. lia.
  - assert (Hall : ∀ x, x ∈ tasks → is_empty (trim x) = false) by tauto.
    intros Ht. specialize (Hall task H1). by rewrite Ht in Hall.
  - destruct H0 as [Hlen Hall]. split; [|split; [by apply Nat.ltb_ge|done]].
    intros x Hx. specialize (Hall x Hx). by destruct (trim x).
  - assert (Hall : ∀ x, x ∈ phases → lt x (of_Z 1) = false) by tauto. auto.
Qed.

End Facts.
End StoreFacts.

(** ** More on the validators *)

Module ValidatorFacts.
Import JS Validation Views ValidationFacts.

(** An error list built row by row, at most one error per row, the error
    of row [k] at index [k + 1]: which rows have one. *)
Lemma flagged_at (cond : nat → Row → bool) (emit : nat → Row → ValidationError)
    (rows : list Row) (i : nat) :
  (∀ k r, row (emit k r) = k + 1) →
  (∃ e, e ∈ mjoin (imap (λ k r, if cond k r then [emit k r] else []) rows) ∧ row e = i + 1)
  ↔ ∃ r, rows !! i = Some r ∧ cond i r = true.
Proof.
  intros Hrow. split.
  - intros (e & He & Hi). apply elem_of_join_imap in He as (k & r & Hr & He).
    destruct (cond k r) eqn:Hcond; [|by apply elem_of_nil in He].
    apply list_elem_of_singleton in He as ->. rewrite Hrow in Hi.
    assert (k = i) as -> by lia. eauto.
  - intros (r & Hr & Hcond). exists (emit i r). split; [|apply Hrow].
    apply elem_of_join_imap. exists i, r. split; [done|].
    rewrite Hcond. by apply list_elem_of_singleton.
Qed.

Lemma join_imap_nil {A B : Type} (f : nat → A → list B) (xs : list A) :
  mjoin (imap f xs) = [] ↔ ∀ k x, xs !! k = Some x → f k x = [].
Proof.
  split.
  - intros Hnil k x Hx. destruct (f k x) as [|e l] eqn:Hf; [done|].
    assert (He : e ∈ mjoin (imap f xs)).
    { apply elem_of_join_imap. exists k, x. split; [done|]. rewrite Hf. by left. }
    rewrite Hnil in He. by apply elem_of_nil in He.
  - intros Hall. destruct (mjoin (imap f xs)) as [|e l] eqn:Hj; [done|].
    assert (He : e ∈ mjoin (imap f xs)) by (rewrite Hj; by left).
    apply elem_of_join_imap in He as (k & x & Hx & He).
    rewrite (Hall k x Hx) in He. by apply elem_of_nil in He.
Qed.

(** X7. [validateRequiredColumns] reports nothing exactly when there are
    no rows or every required column is in the first row; it reads the
    first row only; and what it reports is, in the order of [required], one
    error at row 0 for each required column the first row lacks (neither an
    own key nor an inherited name), and nothing else: so no column is
    reported twice unless it is required twice. *)
Theorem validateRequiredColumns_first_row (rows : list Row) (required : list string) :
  (validateRequiredColumns rows required = [] ↔
   rows = [] ∨ ∃ first rest, rows = first :: rest
                            ∧ ∀ col, col ∈ required → has_key col first = true)
  ∧ (∀ first rest,
       rows = first :: rest →
       validateRequiredColumns rows required = validateRequiredColumns [first] required
       ∧ validateRequiredColumns rows required
         = (λ col, mkError 0 col ("Missing required column: " +:+ col) error)
             <$> filter (lacks first) required
       ∧ (NoDup required → NoDup (validateRequiredColumns rows required))).
Proof.
  assert (Hform : ∀ first rest,
    validateRequiredColumns (first :: rest) required =
    (λ col, mkError 0 col ("Missing required column: " +:+ col) error)
      <$> filter (λ col, has_key col first = false) required).
  { intros first rest. unfold validateRequiredColumns.
    by destruct (filter _ required). }
  split.
  - destruct rows as [|first rest]; [by split; [left|]|].
    rewrite Hform. split.
    + intros Hnil%fmap_nil_inv. right. exists first, rest. split; [done|].
      intros col Hcol. apply not_false_is_true. intros Hkey.
      assert (Hin : col ∈ filter (λ col, has_key col first = false) required)
        by (by apply list_elem_of_filter).
      rewrite Hnil in Hin. by apply elem_of_nil in Hin.
    + intros [?|(first' & rest' & [= <- <-] & Hall)]; [done|].
      destruct (filter (λ col, has_key col first = false) required)
        as [|col cols] eqn:Hf; [done|].
      assert (Hin : col ∈ filter (λ col, has_key col first = false) required)
        by (rewrite Hf; by left).
      apply list_elem_of_filter in Hin as [Hkey Hin].
      rewrite (Hall col Hin) in Hkey. done.
  - intros first rest ->. rewrite !Hform. split; [done|].
    assert (Hlacks : filter (λ col, has_key col first = false) required
                     = filter (lacks first) required).
    { apply list_filter_iff. intros col. apply has_key_false. }
    rewrite Hlacks. split; [done|].
    intros Hnodup. apply NoDup_fmap_2.
    + by intros col col' [=].
    + by apply NoDup_filter.
Qed.

Section Facts.
Context `{Host}.

(** The loop of [validateDuplicateIDs], through the equation of its body. *)
Lemma validateDuplicateIDs_from (idCol : string)
    (body : Row → nat → gset value * list ValidationError → gset value * list ValidationError)
    (rows : list Row) (i : nat)
    (prev : list value) (seen : gset value) (errs : list ValidationError) :
  (∀ r k seen errs,
     body r k (seen, errs) =
     if bool_decide (get r idCol ∈ seen)
     then (seen, errs ++ [mkError (k + 1) idCol
                            ("Duplicate ID: " +:+ String_ (get r idCol)) error])
     else ({[ get r idCol ]} ∪ seen, errs)) →
  seen = list_to_set prev →
  snd (forEach_from i body rows (seen, errs))
  = errs ++ mjoin (imap
      (λ k r,
         if bool_decide (get r idCol ∈ prev ++ take k (column_of idCol rows))
         then [mkError (i + k + 1) idCol ("Duplicate ID: " +:+ String_ (get r idCol)) error]
         else [])
      rows).
Proof.
  intros Hbody. revert i prev seen errs.
  induction rows as [|r rows IH]; intros i prev seen errs Hseen.
  - simpl. by rewrite app_nil_r.
  - cbn [forEach_from]. rewrite Hbody, imap_cons.
    change (column_of idCol (r :: rows)) with (get r idCol :: column_of idCol rows).
    cbn [mjoin list_join take].
    rewrite app_nil_r, Nat.add_0_r.
    assert (Hmem : bool_decide (get r idCol ∈ seen) = bool_decide (get r idCol ∈ prev)).
    { apply bool_decide_ext. rewrite Hseen. apply elem_of_list_to_set. }
    rewrite Hmem.
    assert (Hnext : ∀ (errs' : list ValidationError) (seen' : gset value),
      seen' = list_to_set (prev ++ [get r idCol]) →
      snd (forEach_from (S i) body rows (seen', errs'))
      = errs' ++ mjoin (imap
          ((λ k r0,
             if bool_decide (get r0 idCol ∈ prev ++ take k (get r idCol :: column_of idCol rows))
             then [mkError (i + k + 1) idCol
                     ("Duplicate ID: " +:+ String_ (get r0 idCol)) error]
             else []) ∘ S)
          rows)).
    { intros errs' seen' Hseen'. rewrite (IH (S i) (prev ++ [get r idCol]) seen' errs' Hseen').
      do 2 f_equal. apply imap_ext. intros k r0 _. simpl.
      rewrite <-app_assoc. simpl. by replace (i + S k + 1) with (S (i + k + 1)) by lia. }
    destruct (bool_decide (get r idCol ∈ prev)) eqn:Hin.
    + apply bool_decide_eq_true in Hin.
      rewrite Hnext; [by rewrite <-app_assoc|].
      rewrite Hseen. apply set_eq. intros x.
      rewrite !elem_of_list_to_set, elem_of_app, list_elem_of_singleton.
      split; [tauto|]. intros [?| ->]; done.
    + rewrite Hnext; [done|].
      rewrite Hseen. apply set_eq. intros x.
      rewrite elem_of_union, elem_of_singleton, !elem_of_list_to_set, elem_of_app,
        list_elem_of_singleton. tauto.
Qed.

Lemma validateDuplicateIDs_rows (rows : list Row) (idCol : string) :
  validateDuplicateIDs rows idCol =
    mjoin (imap
      (λ k r,
         if bool_decide (get r idCol ∈ take k (column_of idCol rows))
         then [mkError (k + 1) idCol ("Duplicate ID: " +:+ String_ (get r idCol)) error]
         else [])
      rows).
Proof.
  unfold validateDuplicateIDs, forEach.
  by rewrite (validateDuplicateIDs_from idCol _ rows 0 [] ∅ []).
Qed.

(** X8. [validateDuplicateIDs] reports the row at index [j] (as row
    [j + 1]) exactly when an earlier row holds the same value in the id
    column: the first occurrence of a value is never reported, every later
    one is.  A missing id counts as the value [undefined]. *)
Theorem validateDuplicateIDs_later_occurrences (rows : list Row) (idCol : string) (j : nat) :
  (∃ e, e ∈ validateDuplicateIDs rows idCol ∧ row e = j + 1)
  ↔ ∃ r, rows !! j = Some r
         ∧ ∃ i r', i < j ∧ rows !! i = Some r' ∧ get r' idCol = get r idCol.
Proof.
  rewrite validateDuplicateIDs_rows.
  rewrite (flagged_at
    (λ k r, bool_decide (get r idCol ∈ take k (column_of idCol rows)))
    (λ k r, mkError (k + 1) idCol ("Duplicate ID: " +:+ String_ (get r idCol)) error))
    by done.
  apply exist_proper. intros r. apply and_iff_compat_l.
  rewrite bool_decide_eq_true, elem_of_take. unfold column_of. split.
  - intros (i & Hi & Hlt). rewrite list_lookup_fmap in Hi.
    destruct (rows !! i) as [r'|] eqn:Hr'; [|done]. simpl in Hi.
    exists i, r'. split; [done|]. split; [done|]. congruence.
  - intros (i & r' & Hlt & Hr' & Heq). exists i. split; [|done].
    by rewrite list_lookup_fmap, Hr', <-Heq.
Qed.

Lemma NoDup_take_iff {A : Type} (l : list A) :
  NoDup l ↔ ∀ k x, l !! k = Some x → x ∉ take k l.
Proof.
  rewrite NoDup_alt. split.
  - intros Hnd k x Hk (i & Hi & Hlt)%elem_of_take.
    specialize (Hnd _ _ _ Hk Hi). lia.
  - intros Hall i j x Hi Hj.
    destruct (Nat.lt_trichotomy i j) as [Hlt|[?|Hlt]]; [|done|].
    + exfalso. apply (Hall j x Hj), elem_of_take. eauto.
    + exfalso. apply (Hall i x Hi), elem_of_take. eauto.
Qed.

Lemma validateDuplicateIDs_count_from (idCol : string)
    (body : Row → nat → gset value * list ValidationError → gset value * list ValidationError)
    (rows : list Row) (i : nat) (seen : gset value) (errs : list ValidationError) :
  (∀ r k seen errs,
     body r k (seen, errs) =
     if bool_decide (get r idCol ∈ seen)
     then (seen, errs ++ [mkError (k + 1) idCol
                            ("Duplicate ID: " +:+ String_ (get r idCol)) error])
     else ({[ get r idCol ]} ∪ seen, errs)) →
  let final := forEach_from i body rows (seen, errs) in
  length (snd final) + size (fst final) = length errs + size seen + length rows
  ∧ fst final = seen ∪ list_to_set (column_of idCol rows).
Proof.
  intros Hbody. revert i seen errs.
  induction rows as [|r rows IH]; intros i seen errs; cbn [forEach_from].
  - simpl. split; [lia|]. apply set_eq. intros x. rewrite elem_of_union, elem_of_empty. tauto.
  - rewrite Hbody. case_bool_decide as Hin; cbv iota.
    + destruct (IH (S i) seen
        (errs ++ [mkError (i + 1) idCol ("Duplicate ID: " +:+ String_ (get r idCol)) error]))
        as [Hcount Hseen].
      cbv zeta in *. split.
      * rewrite Hcount, length_app. simpl. lia.
      * rewrite Hseen. simpl. apply set_eq. intros x.
        rewrite !elem_of_union, elem_of_singleton. split; [tauto|].
        intros [?|[->|?]]; tauto.
    + destruct (IH (S i) ({[get r idCol]} ∪ seen) errs) as [Hcount Hseen].
      cbv zeta in *. split.
      * rewrite Hcount, size_union, size_singleton by (by apply disjoint_singleton_l).
        simpl. lia.
      * rewrite Hseen. simpl. apply set_eq. intros x.
        rewrite !elem_of_union, elem_of_singleton. tauto.
Qed.

(** X9. [validateDuplicateIDs] reports nothing exactly when the values of
    the id column are pairwise distinct; in general the number of errors
    is the number of rows minus the number of distinct values. *)
Theorem validateDuplicateIDs_count (rows : list Row) (idCol : string) :
  (validateDuplicateIDs rows idCol = [] ↔ NoDup (column_of idCol rows))
  ∧ length (validateDuplicateIDs rows idCol)
    + size (list_to_set (column_of idCol rows) : gset value) = length rows.
Proof.
  split.
  - rewrite validateDuplicateIDs_rows, join_imap_nil, NoDup_take_iff. split.
    + intros Hall k x Hx. unfold column_of in Hx. rewrite list_lookup_fmap in Hx.
      destruct (rows !! k) as [r|] eqn:Hr; [|done]. simpl in Hx. injection Hx as <-.
      specialize (Hall k r Hr). cbv beta in Hall. by case_bool_decide.
    + intros Hall k r Hr. cbv beta. rewrite bool_decide_eq_false_2; [done|].
      apply (Hall k). unfold column_of. by rewrite list_lookup_fmap, Hr.
  - unfold validateDuplicateIDs, forEach.
    match goal with
    | |- context [forEach_from 0 ?body rows (∅, [])] =>
        destruct (validateDuplicateIDs_count_from idCol body rows 0 ∅ [])
          as [Hcount Hseen]; [by intros r k seen errs|]
    end.
    rewrite Hseen in Hcount. cbn [length] in Hcount.
    replace (∅ ∪ list_to_set (column_of idCol rows) : gset value)
      with (list_to_set (column_of idCol rows) : gset value) in Hcount.
    { rewrite (size_empty (C := gset value)) in Hcount. lia. }
    apply set_eq. intros x. rewrite elem_of_union, elem_of_empty. tauto.
Qed.

Lemma isNaN_true (n : number) : isNaN n = true ↔ n = NaN.
Proof. by destruct n. Qed.

Lemma is_empty_true (s : string) : is_empty s = true ↔ s = "".
Proof. by destruct s. Qed.

Lemma validateRange_rows (rows : list Row) (col : string) (min max : number) :
  validateRange rows col min max =
    mjoin (imap
      (λ i r,
         if isNaN (Number_ (get r col)) || lt (Number_ (get r col)) min
            || gt (Number_ (get r col)) max
         then [mkError (i + 1) col
                 ("Value out of range (" +:+ NumberToString min +:+ "-" +:+
                  NumberToString max +:+ ") in " +:+ col) error]
         else [])
      rows).
Proof.
  unfold validateRange.
  apply (one_per_row
    (λ r, isNaN (Number_ (get r col)) || lt (Number_ (get r col)) min
          || gt (Number_ (get r col)) max)).
Qed.

(** X10. [validateRange] reports a row exactly when the value of the
    column converts to NaN, or is below [min], or is above [max]; a row
    that lacks the column is reported; and with [max = Infinity] nothing is
    reported for being too large. *)
Theorem validateRange_flags (rows : list Row) (col : string) (min max : number)
    (i : nat) (r : Row) :
  rows !! i = Some r →
  let val := Number_ (get r col) in
  let flagged := ∃ e, e ∈ validateRange rows col min max ∧ row e = i + 1 in
  (flagged ↔ val = NaN ∨ lt val min = true ∨ lt max val = true)
  ∧ (r !! col = None → flagged)
  ∧ (max = Infinity → (flagged ↔ val = NaN ∨ lt val min = true)).
Proof.
  intros Hr val flagged.
  assert (Hflag : flagged ↔ val = NaN ∨ lt val min = true ∨ lt max val = true).
  { unfold flagged. rewrite validateRange_rows, one_per_row_at.
    rewrite <-isNaN_true, <-!orb_true_iff, orb_assoc. split.
    - intros (r' & Hr' & Hcond). by simplify_eq.
    - intros Hcond. eauto. }
  split; [done|]. split.
  - intros Hmissing. apply Hflag. left. unfold val.
    by destruct (get_not_own col r Hmissing) as [->| ->].
  - intros ->. rewrite Hflag. by destruct val; simpl; intuition.
Qed.

Lemma validateGroupTags_rows (rows : list Row) (groupCol : string) :
  validateGroupTags rows groupCol =
    mjoin (imap
      (λ i r,
         if negb (truthy (get r groupCol)) || is_empty (trim (String_ (get r groupCol)))
         then [mkError (i + 1) groupCol "Empty or invalid group tag" error]
         else [])
      rows).
Proof.
  unfold validateGroupTags.
  apply (one_per_row
    (λ r, negb (truthy (get r groupCol)) || is_empty (trim (String_ (get r groupCol))))).
Qed.

(** X11. [validateGroupTags] reports a row exactly when the value of the
    column is falsy or blank after [String] and [trim]; a row without the
    column among its own keys is reported, unless the name is one a row
    inherits, whose value is a function: then it is reported only if the
    text of that function is blank. *)
Theorem validateGroupTags_flags (rows : list Row) (groupCol : string) (i : nat) (r : Row) :
  rows !! i = Some r →
  let flagged := ∃ e, e ∈ validateGroupTags rows groupCol ∧ row e = i + 1 in
  (flagged ↔ truthy (get r groupCol) = false ∨ trim (String_ (get r groupCol)) = "")
  ∧ (r !! groupCol = None →
     (flagged ↔ groupCol ∉ Object_prototype ∨ trim (BuiltinToString groupCol) = ""))
  ∧ (r !! groupCol = None → groupCol ∉ Object_prototype → flagged).
Proof.
  intros Hr flagged.
  assert (Hflag : flagged ↔
            truthy (get r groupCol) = false ∨ trim (String_ (get r groupCol)) = "").
  { unfold flagged. rewrite validateGroupTags_rows, one_per_row_at.
    rewrite <-is_empty_true, <-negb_true_iff, <-orb_true_iff. split.
    - intros (r' & Hr' & Hcond). by simplify_eq.
    - intros Hcond. eauto. }
  assert (Hown : r !! groupCol = None →
            (flagged ↔ groupCol ∉ Object_prototype ∨ trim (BuiltinToString groupCol) = "")).
  { intros Hmissing. rewrite Hflag. unfold get, inherited. rewrite Hmissing.
    case_bool_decide as Hproto; cbn [truthy String_]; split.
    - intros [?|?]; [done|by right].
    - intros [?|?]; [done|by right].
    - by left.
    - by left. }
  split; [done|]. split; [done|].
  intros Hmissing Hproto. apply (Hown Hmissing). by left.
Qed.

Lemma existsb_true {A : Type} (f : A → bool) (xs : list A) :
  existsb f xs = true ↔ ∃ x, x ∈ xs ∧ f x = true.
Proof.
  rewrite existsb_exists. split; intros (x & Hx & Hf); exists x.
  - by rewrite list_elem_of_In.
  - by rewrite <-list_elem_of_In.
Qed.

Lemma validateNumericList_rows (rows : list Row) (col : string) :
  validateNumericList rows col =
    mjoin (imap
      (λ i r,
         if truthy (get r col)
            && existsb (λ v, negb (is_empty v) && isNaN (StringToNumber v))
                 (tokens comma_or_semicolon (get r col))
         then [mkError (i + 1) col ("Malformed numeric list in " +:+ col) error]
         else [])
      rows).
Proof.
  unfold validateNumericList.
  rewrite <-(one_per_row
    (λ r, truthy (get r col)
          && existsb (λ v, negb (is_empty v) && isNaN (StringToNumber v))
               (tokens comma_or_semicolon (get r col)))).
  apply forEach_from_ext. intros r k s. unfold tokens. by destruct (truthy (get r col)).
Qed.

(** X12. [validateNumericList] reports a row exactly when the value of the
    column is truthy and one of its comma- or semicolon-separated tokens
    is, after [trim], not empty and not a numeral; a falsy value (a missing
    column, the empty string) is never reported, and empty tokens are
    skipped. *)
Theorem validateNumericList_flags (rows : list Row) (col : string) (i : nat) (r : Row) :
  rows !! i = Some r →
  let flagged := ∃ e, e ∈ validateNumericList rows col ∧ row e = i + 1 in
  (flagged ↔
   truthy (get r col) = true
   ∧ ∃ v, v ∈ tokens comma_or_semicolon (get r col) ∧ v ≠ "" ∧ StringToNumber v = NaN)
  ∧ (truthy (get r col) = false → ¬ flagged).
Proof.
  intros Hr flagged.
  assert (Hflag : flagged ↔
            truthy (get r col) = true
            ∧ ∃ v, v ∈ tokens comma_or_semicolon (get r col) ∧ v ≠ ""
                   ∧ StringToNumber v = NaN).
  { unfold flagged. rewrite validateNumericList_rows, one_per_row_at. split.
    - intros (r' & Hr' & Hcond). simplify_eq.
      apply andb_true_iff in Hcond as [Ht Hex]. split; [done|].
      apply existsb_true in Hex as (v & Hv & Hbad).
      apply andb_true_iff in Hbad as [Hne HNaN]. exists v. split; [done|].
      rewrite isNaN_true in HNaN. split; [|done]. intros ->. done.
    - intros (Ht & v & Hv & Hne & HNaN). exists r. split; [done|].
      rewrite Ht. simpl. apply existsb_true. exists v. split; [done|].
      rewrite HNaN. simpl. by destruct v. }
  split; [done|]. intros Hfalsy [Ht _]%Hflag. congruence.
Qed.











(** *** Rows in range, and nothing but errors *)

Lemma within_mono (n m : nat) (errs : list ValidationError) :
  n ≤ m → Forall (reported_within n) errs → Forall (reported_within m) errs.
Proof.
  intros Hnm Hall. eapply Forall_impl; [done|].
  intros e [Hrow Htype]. split; [lia|done].
Qed.

Lemma within_push (n m : nat) (errs : list ValidationError) (e : ValidationError) :
  Forall (reported_within n) errs → n ≤ m → row e ≤ m → type e = error →
  Forall (reported_within m) (push errs e).
Proof.
  intros Herrs Hnm Hrow Htype. apply Forall_app. split.
  - by apply (within_mono n).
  - by repeat constructor.
Qed.

Lemma within_step (cond : bool) (k : nat) (errs : list ValidationError) (col msg : string) :
  Forall (reported_within k) errs →
  Forall (reported_within (S k))
    (if cond then push errs (mkError (k + 1) col msg error) else errs).
Proof.
  intros Herrs. destruct cond.
  - apply (within_push k); [done|lia|simpl; lia|done].
  - apply (within_mono k); [lia|done].
Qed.

Lemma forEach_within {A : Type}
    (body : A → nat → list ValidationError → list ValidationError) (xs : list A) :
  (∀ x k s, Forall (reported_within k) s → Forall (reported_within (S k)) (body x k s)) →
  Forall (reported_within (length xs)) (forEach body xs []).
Proof.
  intros Hbody.
  apply (forEach_from_ind (λ k s, Forall (reported_within k) s) body xs 0 []);
    [constructor|eauto].
Qed.

Lemma forEach_inner_within {A : Type} (k : nat)
    (body : A → nat → list ValidationError → list ValidationError) (xs : list A)
    (s : list ValidationError) :
  (∀ x j s, Forall (reported_within (S k)) s → Forall (reported_within (S k)) (body x j s)) →
  Forall (reported_within k) s → Forall (reported_within (S k)) (forEach body xs s).
Proof.
  intros Hbody Hs.
  apply (forEach_from_ind (λ _ s, Forall (reported_within (S k)) s)); [|eauto].
  apply (within_mono k); [lia|done].
Qed.

Lemma validateRequiredColumns_within rows required :
  Forall (reported_within (length rows)) (validateRequiredColumns rows required).
Proof.
  unfold validateRequiredColumns. destruct rows as [|first rows]; [constructor|].
  destruct (filter _ required) as [|col missing]; [constructor|].
  apply Forall_fmap, Forall_forall. intros c _. split; simpl; [lia|done].
Qed.

Lemma validateDuplicateIDs_within rows idCol :
  Forall (reported_within (length rows)) (validateDuplicateIDs rows idCol).
Proof.
  unfold validateDuplicateIDs, forEach.
  apply (forEach_from_ind (λ k st, Forall (reported_within k) (snd st)) _ rows 0 (∅, []));
    [constructor|].
  intros x k [seen errs] _ Hs. simpl in *.
  case_bool_decide; simpl.
  - apply (within_push k); [done|lia|simpl; lia|done].
  - apply (within_mono k); [lia|done].
Qed.

Lemma validateNumericList_within rows col :
  Forall (reported_within (length rows)) (validateNumericList rows col).
Proof.
  apply forEach_within. intros x k s Hs.
  destruct (truthy (get x col)); [by apply within_step|].
  by apply (within_step false _ _ "" "").
Qed.

Lemma validateRange_within rows col min max :
  Forall (reported_within (length rows)) (validateRange rows col min max).
Proof. apply forEach_within. intros x k s Hs. by apply within_step. Qed.

Lemma validateJSON_within rows col :
  Forall (reported_within (length rows)) (validateJSON rows col).
Proof.
  unfold validateJSON. destruct rows as [|first rows]; [constructor|].
  destruct (negb (has_key col first)); [constructor|].
  apply forEach_within. intros x k s Hs.
  destruct (truthy (get x col)); [|by apply (within_step false _ _ "" "")].
  destruct (JSON_parses _); [by apply (within_step false _ _ "" "")|].
  by apply (within_step true).
Qed.

Lemma validateGroupTags_within rows groupCol :
  Forall (reported_within (length rows)) (validateGroupTags rows groupCol).
Proof. apply forEach_within. intros x k s Hs. by apply within_step. Qed.

Lemma validateWorkerLoad_within rows :
  Forall (reported_within (length rows)) (validateWorkerLoad rows).
Proof. apply forEach_within. intros x k s Hs. by apply within_step. Qed.

Lemma validateReferences_within rows col validIDs delimiter :
  Forall (reported_within (length rows)) (validateReferences rows col validIDs delimiter).
Proof.
  apply forEach_within. intros x k s Hs.
  destruct (truthy (get x col)); [|by apply (within_step false _ _ "" "")].
  apply forEach_inner_within; [|done].
  intros id _ s' Hs'. destruct (_ && _); [|done].
  apply (within_push (S k)); [done|lia|simpl; lia|done].
Qed.

Lemma validateSkillCoverage_within tasks workers :
  Forall (reported_within (length tasks)) (validateSkillCoverage tasks workers).
Proof.
  apply forEach_within. intros x k s Hs.
  apply forEach_inner_within; [|done].
  intros skill _ s' Hs'. destruct (_ && _); [|done].
  apply (within_push (S k)); [done|lia|simpl; lia|done].
Qed.

Lemma clientErrors_within clients tasks :
  Forall (reported_within (length clients)) (clientErrors clients tasks).
Proof.
  unfold clientErrors. rewrite !Forall_app.
  auto 10 using validateRequiredColumns_within, validateDuplicateIDs_within,
    validateRange_within, validateJSON_within, validateGroupTags_within,
    validateReferences_within.
Qed.

Lemma workerErrors_within workers :
  Forall (reported_within (length workers)) (workerErrors workers).
Proof.
  unfold workerErrors. rewrite !Forall_app.
  auto 10 using validateRequiredColumns_within, validateDuplicateIDs_within,
    validateNumericList_within, validateWorkerLoad_within, validateGroupTags_within.
Qed.

Lemma taskErrors_within tasks workers :
  Forall (reported_within (length tasks)) (taskErrors tasks workers).
Proof.
  unfold taskErrors. rewrite !Forall_app.
  auto 10 using validateRequiredColumns_within, validateDuplicateIDs_within,
    validateRange_within, validateSkillCoverage_within.
Qed.

Lemma count_of_errors (errs : list ValidationError) :
  Forall (λ e, type e = error) errs →
  count_of error errs = length errs ∧ count_of warning errs = 0.
Proof.
  unfold count_of. induction 1 as [|e errs He _ [IHe IHw]]; [done|].
  rewrite filter_cons_True by done. rewrite filter_cons_False by (by rewrite He).
  simpl. by rewrite IHe, IHw.
Qed.

Lemma summarize_errors (errs : list ValidationError) :
  Forall (λ e, type e = error) errs →
  summarize errs = match errs with [] => ∅ | _ => {[ "error" := length errs ]} end.
Proof.
  intros Hall. destruct (count_of_errors errs Hall) as [Herror Hwarning].
  destruct (summarize_counts errs) as [Htag Hother].
  apply map_eq. intros k.
  destruct (decide (k = "error")) as [->|Hne1].
  - pose proof (Htag error) as Hk. cbn [Severity_tag] in Hk. rewrite Hk, Herror.
    destruct errs; [done|]. by rewrite lookup_singleton_eq.
  - assert (Hnone : summarize errs !! k = None).
    { destruct (decide (k = "warning")) as [->|Hne2].
      - pose proof (Htag warning) as Hk. cbn [Severity_tag] in Hk.
        by rewrite Hk, Hwarning.
      - apply Hother. by intros []. }
    rewrite Hnone. destruct errs; [done|]. by rewrite lookup_singleton_ne.
Qed.

Lemma within_error (n : nat) (errs : list ValidationError) :
  Forall (reported_within n) errs → Forall (λ e, type e = error) errs.
Proof. intros Hall. eapply Forall_impl; [done|]. by intros e []. Qed.

(** X15. Every entry [validateAll] reports has [type] ['error'] and a row
    between 0 and the number of rows of its dataset, so it designates the
    header or an existing row. *)
Theorem validateAll_rows_in_range (d : Datasets) :
  let r := validateAll d in
  Forall (reported_within (length (default [] (clients d)))) (errors (clients_result r))
  ∧ Forall (reported_within (length (default [] (workers d)))) (errors (workers_result r))
  ∧ Forall (reported_within (length (default [] (tasks d)))) (errors (tasks_result r)).
Proof.
  intros r. subst r.
  destruct (no_length (clients d) || no_length (workers d) || no_length (tasks d)) eqn:Hg.
  - rewrite (validateAll_guard d Hg). simpl. repeat split; constructor.
  - rewrite (validateAll_run d Hg).
    cbn [errors clients_result workers_result tasks_result].
    auto using clientErrors_within, workerErrors_within, taskErrors_within.
Qed.

(** X16. Each summary of [validateAll] is empty when its dataset has no
    errors and otherwise has the single key ['error'], counting all of
    them: no warning is ever counted. *)
Theorem validateAll_summary (d : Datasets) :
  let r := validateAll d in
  Forall
    (λ res, summary res
            = match errors res with [] => ∅ | _ => {[ "error" := length (errors res) ]} end)
    [clients_result r; workers_result r; tasks_result r].
Proof.
  intros r. subst r.
  destruct (no_length (clients d) || no_length (workers d) || no_length (tasks d)) eqn:Hg.
  - rewrite (validateAll_guard d Hg). by repeat constructor.
  - rewrite (validateAll_run d Hg).
    cbn [errors summary clients_result workers_result tasks_result].
    repeat constructor; cbn [errors summary]; apply summarize_errors;
      eapply within_error;
      eauto using clientErrors_within, workerErrors_within, taskErrors_within.
Qed.

End Facts.
End ValidatorFacts.

(** ** [validateExportData] *)

Module ExportFacts.
Import JS Validation ExportUtils ValidationFacts ValidatorFacts.

Lemma export_push_if_zero (cond : bool) (msg : string) (errs : list string) :
  (length (push_if cond msg errs) =? 0) = true ↔ cond = false ∧ (length errs =? 0) = true.
Proof.
  unfold push_if. destruct cond.
  - rewrite length_app, Nat.eqb_eq. simpl. split; [lia|by intros []].
  - tauto.
Qed.

Lemma export_push_if_length (cond : bool) (msg : string) (errs : list string) :
  length (push_if cond msg errs) = length errs + (if cond then 1 else 0).
Proof. unfold push_if. destruct cond; [|lia]. rewrite length_app. simpl. lia. Qed.

Lemma check_fields_zero rows required prefix errs :
  (length (check_fields rows required prefix errs) =? 0) = true ↔
  (length errs =? 0) = true ∧ first_row_has rows required.
Proof.
  unfold check_fields, first_row_has. destruct rows as [[|first rest]|]; [tauto| |tauto].
  rewrite export_push_if_zero, Nat.ltb_ge. split.
  - intros [Hlen Herrs]. split; [done|]. intros field Hfield.
    apply not_false_is_true. intros Hkey.
    assert (Hin : field ∈ filter (λ field, has_key field first = false) required)
      by (by apply list_elem_of_filter).
    destruct (filter _ required); [by apply elem_of_nil in Hin|simpl in Hlen; lia].
  - intros [Herrs Hall]. split; [|done].
    destruct (filter (λ field, has_key field first = false) required) as [|f fs] eqn:Hf;
      [done|].
    assert (Hin : f ∈ filter (λ field, has_key field first = false) required)
      by (rewrite Hf; by left).
    apply list_elem_of_filter in Hin as [Hkey Hin]. rewrite (Hall f Hin) in Hkey. done.
Qed.

Lemma check_fields_length rows required prefix errs :
  length (check_fields rows required prefix errs)
  ≤ length errs + (if no_length rows then 0 else 1).
Proof.
  unfold check_fields. destruct rows as [[|first rest]|]; simpl; try lia.
  rewrite export_push_if_length. destruct (0 <? _); lia.
Qed.

Lemma no_length_false (rows : option (list Row)) :
  no_length rows = false ↔ ∃ first rest, rows = Some (first :: rest).
Proof.
  destruct rows as [[|first rest]|]; simpl; split; try done; try (by intros (? & ? & ?)).
  intros _. eauto.
Qed.

Lemma validateExportData_valid_iff (clients workers tasks : option (list Row)) :
  isValid (validateExportData clients workers tasks) = true ↔
  ∃ c cs w ws t ts,
    clients = Some (c :: cs) ∧ workers = Some (w :: ws) ∧ tasks = Some (t :: ts)
    ∧ (∀ field, field ∈ requiredClientFields → has_key field c = true)
    ∧ (∀ field, field ∈ requiredWorkerFields → has_key field w = true)
    ∧ (∀ field, field ∈ requiredTaskFields → has_key field t = true).
Proof.
  unfold validateExportData. cbn [isValid].
  rewrite !check_fields_zero, !export_push_if_zero, !no_length_false. split.
  - intros Hall.
    repeat match goal with Hand : _ ∧ _ |- _ => destruct Hand end.
    repeat match goal with Hex : ∃ _, _ |- _ => destruct Hex end.
    subst. unfold first_row_has in *. repeat eexists; eauto.
  - intros (c & cs & w & ws & t & ts & -> & -> & -> & Hc & Hw & Ht).
    repeat split; eauto.
Qed.

(** X17. [validateExportData] accepts exactly when the three datasets are
    present and non-empty and the first row of each has the fields the
    function lists for it; and it never returns more than three messages,
    one per dataset at most. *)
Theorem validateExportData_accepts (clients workers tasks : option (list Row)) :
  (isValid (validateExportData clients workers tasks) = true ↔
   ∃ c cs w ws t ts,
     clients = Some (c :: cs) ∧ workers = Some (w :: ws) ∧ tasks = Some (t :: ts)
     ∧ (∀ field, field ∈ requiredClientFields → has_key field c = true)
     ∧ (∀ field, field ∈ requiredWorkerFields → has_key field w = true)
     ∧ (∀ field, field ∈ requiredTaskFields → has_key field t = true))
  ∧ length (errors (validateExportData clients workers tasks)) ≤ 3.
Proof.
  split; [apply validateExportData_valid_iff|].
  unfold validateExportData. cbn [errors].
  pose proof (check_fields_length tasks requiredTaskFields "Missing required task fields: ")
    as Ht.
  pose proof (check_fields_length workers requiredWorkerFields
                "Missing required worker fields: ") as Hw.
  pose proof (check_fields_length clients requiredClientFields
                "Missing required client fields: ") as Hc.
  etransitivity; [apply Ht|].
  match goal with
  | |- length (check_fields workers _ _ (check_fields clients _ _ ?errs)) + _ ≤ _ =>
      specialize (Hw (check_fields clients requiredClientFields
                        "Missing required client fields: " errs));
      specialize (Hc errs);
      assert (Hbase : length errs
                      = (if no_length clients then 1 else 0)
                        + (if no_length workers then 1 else 0)
                        + (if no_length tasks then 1 else 0))
        by (rewrite !export_push_if_length; simpl; lia)
  end.
  destruct (no_length clients), (no_length workers), (no_length tasks); lia.
Qed.

Lemma missing_column_reported (first : Row) (rest : list Row) (required : list string)
    (col : string) :
  col ∈ required → has_key col first = false →
  mkError 0 col ("Missing required column: " +:+ col) error
  ∈ validateRequiredColumns (first :: rest) required.
Proof.
  intros Hcol Hkey. unfold validateRequiredColumns.
  assert (Hin : col ∈ filter (λ col, has_key col first = false) required)
    by (by apply list_elem_of_filter).
  destruct (filter (λ col, has_key col first = false) required) as [|c cs] eqn:Hf;
    [by apply elem_of_nil in Hin|].
  apply list_elem_of_fmap. by exists col.
Qed.

Section Facts.
Context `{Host}.

(** X18. Data that passes the header check of [validateAll] can be
    exported: when the three datasets are non-empty and [validateAll]
    reports no entry at row 0, [validateExportData] accepts them. *)
Theorem validated_data_exports (d : Datasets) :
  no_length (clients d) = false → no_length (workers d) = false →
  no_length (tasks d) = false →
  let r := validateAll d in
  (∀ e, e ∈ Validation.errors (clients_result r) → row e ≠ 0) →
  (∀ e, e ∈ Validation.errors (workers_result r) → row e ≠ 0) →
  (∀ e, e ∈ Validation.errors (tasks_result r) → row e ≠ 0) →
  isValid (validateExportData (clients d) (workers d) (tasks d)) = true.
Proof.
  intros Hc Hw Ht r Hce Hwe Hte. subst r.
  rewrite validateAll_run in Hce, Hwe, Hte by (by rewrite Hc, Hw, Ht).
  cbn [Validation.errors clients_result workers_result tasks_result] in *.
  apply no_length_false in Hc as (c & cs & Hc), Hw as (w & ws & Hw), Ht as (t & ts & Ht).
  rewrite Hc, Hw, Ht in *. cbn [default] in *.
  apply validateExportData_valid_iff. exists c, cs, w, ws, t, ts.
  repeat split; intros field Hfield; apply not_false_is_true; intros Hkey.
  - apply (Hce (mkError 0 field ("Missing required column: " +:+ field) error)); [|done].
    unfold clientErrors. apply elem_of_app. left.
    apply missing_column_reported; [|done].
    unfold requiredClientFields in Hfield.
    rewrite !elem_of_cons, elem_of_nil in Hfield. rewrite !elem_of_cons. tauto.
  - apply (Hwe (mkError 0 field ("Missing required column: " +:+ field) error)); [|done].
    unfold workerErrors. apply elem_of_app. left.
    apply missing_column_reported; [|done].
    unfold requiredWorkerFields in Hfield.
    rewrite !elem_of_cons, elem_of_nil in Hfield. rewrite !elem_of_cons. tauto.
  - apply (Hte (mkError 0 field ("Missing required column: " +:+ field) error)); [|done].
    unfold taskErrors. apply elem_of_app. left.
    apply missing_column_reported; [|done].
    unfold requiredTaskFields in Hfield.
    rewrite !elem_of_cons, elem_of_nil in Hfield. rewrite !elem_of_cons. tauto.
Qed.

End Facts.
End ExportFacts.

(** ** More of the code at concrete inputs *)

Module MoreRuns.
Import JS Validation Views Rules RulesFacts ValidationFacts.
Import StoreFacts ValidatorFacts ExportUtils ExportFacts.

(** Deleting at NaN. *)
Lemma deleteRule_removes_position_witness :
  let st := mkState [coRun ["T1"; "T2"]; loadLimit "G" (of_Z 3)] in
  (∀ i, i < length (rules st) → NaN ≠ of_nat i) ∧
  deleteRule NaN st = (Returned tt, st).
Proof.
  intros st.
  assert (Hno : ∀ i, i < length (rules st) → NaN ≠ of_nat i) by (by intros i _).
  split; [exact Hno|].
  destruct (deleteRule_removes_position st) as [_ Hkeep].
  exact (Hkeep NaN Hno).
Defined.

(** Replacing the second of two rules. *)
Lemma updateRule_replaces_position_witness :
  let st := mkState [coRun ["T1"; "T2"]; loadLimit "G" (of_Z 3)] in
  let rule := phaseWindow "T1" [of_Z 1] in
  valid (H := Sample.host) rule ∧
  updateRule (H := Sample.host) (of_nat 1) rule st
    = (Returned tt, mkState [coRun ["T1"; "T2"]; rule]).
Proof.
  intros st rule.
  assert (Hv : valid (H := Sample.host) rule) by reflexivity.
  split; [exact Hv|].
  destruct (updateRule_replaces_position (H := Sample.host) rule st) as [Hat _].
  exact (Hat 1 Hv).
Defined.

(** Adding then deleting the last rule. *)
Lemma addRule_deleteRule_last_witness :
  let st := mkState [coRun ["T1"; "T2"]] in
  let rule := loadLimit "G" (of_Z 3) in
  valid (H := Sample.host) rule ∧
  (addRule (H := Sample.host) rule;; deleteRule (of_nat (length (rules st)))) st
    = (Returned tt, st).
Proof.
  intros st rule.
  assert (Hv : valid (H := Sample.host) rule) by reflexivity.
  split; [exact Hv|].
  exact (addRule_deleteRule_last (H := Sample.host) rule st Hv).
Defined.

(** Importing two valid rules against adding them to a cleared store. *)
Lemma adds_store_the_valid_rules_witness :
  let st := mkState [slotRestriction "G" (of_Z 2)] in
  let rs := [coRun ["T1"; "T2"]; loadLimit "G" (of_Z 3)] in
  Forall (valid (H := Sample.host)) rs ∧
  state_after (importRules (H := Sample.host) rs) st
    = run_all (H := Sample.host) (OpClear :: (OpAdd <$> rs)) st.
Proof.
  intros st rs.
  assert (Hall : Forall (valid (H := Sample.host)) rs) by (repeat constructor).
  split; [exact Hall|].
  destruct (adds_store_the_valid_rules (H := Sample.host) rs st) as [_ Himport].
  exact (Himport Hall).
Defined.

(** A first row without [ClientName]; the second row is not read. *)
Lemma validateRequiredColumns_first_row_witness :
  let first : Row := {[ "ClientID" := VString "C1" ]} in
  let rest : list Row := [∅] in
  first :: rest = first :: rest ∧
  validateRequiredColumns (first :: rest) ["ClientID"; "ClientName"]
    = validateRequiredColumns [first] ["ClientID"; "ClientName"].
Proof.
  intros first rest. split; [reflexivity|].
  destruct (validateRequiredColumns_first_row (first :: rest) ["ClientID"; "ClientName"])
    as [_ Hfirst].
  destruct (Hfirst first rest eq_refl) as [Hsame _]. exact Hsame.
Defined.

(** A row without [PriorityLevel] is out of range. *)
Lemma validateRange_flags_witness :
  let r : Row := {[ "ClientID" := VString "C1" ]} in
  let rows := [r] in
  rows !! 0 = Some r ∧ r !! "PriorityLevel" = None ∧
  ∃ e, e ∈ validateRange (H := Sample.host) rows "PriorityLevel" (of_Z 1) (of_Z 5)
       ∧ row e = 0 + 1.
Proof.
  intros r rows.
  assert (Hr : rows !! 0 = Some r) by reflexivity.
  assert (Hmissing : r !! "PriorityLevel" = None) by (by vm_compute).
  split; [exact Hr|]. split; [exact Hmissing|].
  destruct (validateRange_flags (H := Sample.host) rows "PriorityLevel" (of_Z 1) (of_Z 5)
              0 r Hr) as (_ & Hflag & _).
  exact (Hflag Hmissing).
Defined.

(** A row without [GroupTag] is reported. *)
Lemma validateGroupTags_flags_witness :
  let r : Row := {[ "ClientID" := VString "C1" ]} in
  let rows := [r] in
  rows !! 0 = Some r ∧ r !! "GroupTag" = None ∧ ("GroupTag" ∉ Object_prototype) ∧
  ∃ e, e ∈ validateGroupTags (H := Sample.host) rows "GroupTag" ∧ row e = 0 + 1.
Proof.
  intros r rows.
  assert (Hr : rows !! 0 = Some r) by reflexivity.
  assert (Hmissing : r !! "GroupTag" = None) by (by vm_compute).
  assert (Hproto : "GroupTag" ∉ Object_prototype).
  { apply (bool_decide_eq_false_1 ("GroupTag" ∈ Object_prototype)). by vm_compute. }
  split; [exact Hr|]. split; [exact Hmissing|]. split; [exact Hproto|].
  destruct (validateGroupTags_flags (H := Sample.host) rows "GroupTag" 0 r Hr)
    as (_ & _ & Hflag).
  exact (Hflag Hmissing Hproto).
Defined.

(** An empty [AvailableSlots] is not a malformed list. *)
Lemma validateNumericList_flags_witness :
  let r : Row := {[ "AvailableSlots" := VString "" ]} in
  let rows := [r] in
  rows !! 0 = Some r ∧ truthy (get r "AvailableSlots") = false ∧
  ¬ ∃ e, e ∈ validateNumericList (H := Sample.host) rows "AvailableSlots" ∧ row e = 0 + 1.
Proof.
  intros r rows.
  assert (Hr : rows !! 0 = Some r) by reflexivity.
  assert (Hfalsy : truthy (get r "AvailableSlots") = false) by (by vm_compute).
  split; [exact Hr|]. split; [exact Hfalsy|].
  destruct (validateNumericList_flags (H := Sample.host) rows "AvailableSlots" 0 r Hr)
    as [_ Hskip].
  exact (Hskip Hfalsy).
Defined.



(** Three one-row datasets with every column of their schemas. *)
Lemma validated_data_exports_witness :
  let d := mkDatasets
    (Some [{[ "ClientID" := VString "C1"; "ClientName" := VString "Acme";
              "PriorityLevel" := VString "1"; "RequestedTaskIDs" := VString "T1";
              "GroupTag" := VString "g"; "AttributesJSON" := VString "{}" ]}])
    (Some [{[ "WorkerID" := VString "W1"; "WorkerName" := VString "Ann";
              "Skills" := VString "a"; "AvailableSlots" := VString "1";
              "MaxLoadPerPhase" := VString "1"; "WorkerGroup" := VString "g";
              "QualificationLevel" := VString "1" ]}])
    (Some [{[ "TaskID" := VString "T1"; "TaskName" := VString "t";
              "Category" := VString "c"; "Duration" := VString "1";
              "RequiredSkills" := VString "a"; "PreferredPhases" := VString "1";
              "MaxConcurrent" := VString "1" ]}]) in
  Validation.errors (clients_result (validateAll (H := Sample.host) d)) = [] ∧
  isValid (validateExportData (clients d) (workers d) (tasks d)) = true.
Proof.
  intros d.
  assert (Hc : Validation.errors (clients_result (validateAll (H := Sample.host) d)) = [])
    by (by vm_compute).
  assert (Hw : Validation.errors (workers_result (validateAll (H := Sample.host) d)) = [])
    by (by vm_compute).
  assert (Ht : Validation.errors (tasks_result (validateAll (H := Sample.host) d)) = [])
    by (by vm_compute).
  split; [exact Hc|].
  apply (validated_data_exports (H := Sample.host) d); try reflexivity.
  - intros e He. rewrite Hc in He. by apply elem_of_nil in He.
  - intros e He. rewrite Hw in He. by apply elem_of_nil in He.
  - intros e He. rewrite Ht in He. by apply elem_of_nil in He.
Defined.

End MoreRuns.

(** ** The form handlers *)

Module FormFacts.
Import JS Rules RulesFacts StoreFacts RuleBuilder.

(** *** [trim] *)






(** *** [split] on runs of separators, against [join] *)

Lemma comma_or_space_white c : comma_or_space c = false → is_white_space c = false.
Proof. unfold comma_or_space. by intros [_ ?]%orb_false_iff. Qed.

Lemma trimEnd_plain (t : string) : plain t = true → trimEnd t = t.
Proof.
  induction t as [|c t IH]; [done|]. simpl.
  intros [Hc Ht]%andb_true_iff. apply negb_true_iff, comma_or_space_white in Hc.
  by rewrite Hc, IH.
Qed.

Lemma trim_plain (t : string) : plain t = true → trim t = t.
Proof.
  intros Ht. unfold trim. destruct t as [|c t]; [done|].
  pose proof Ht as Ht'. simpl in Ht'. apply andb_true_iff in Ht' as [Hc _].
  apply negb_true_iff, comma_or_space_white in Hc.
  simpl trimStart. rewrite Hc. by apply trimEnd_plain.
Qed.

Lemma split_runs_plain (t : string) :
  plain t = true → split_runs_from comma_or_space false t = [t].
Proof.
  induction t as [|c t IH]; [done|]. simpl.
  intros [Hc Ht]%andb_true_iff. apply negb_true_iff in Hc. by rewrite Hc, IH.
Qed.

Lemma split_runs_app (t s h : string) (tl : list string) :
  plain t = true → split_runs_from comma_or_space false s = h :: tl →
  split_runs_from comma_or_space false (t +:+ s) = (t +:+ h) :: tl.
Proof.
  intros Ht Hs. induction t as [|c t IH]; [done|]. simpl in *.
  apply andb_true_iff in Ht as [Hc Ht]. apply negb_true_iff in Hc.
  by rewrite Hc, (IH Ht).
Qed.

Lemma append_empty_r (t : string) : t +:+ "" = t.
Proof.
  induction t as [|c t IH]; [done|].
  change (String c t +:+ "") with (String c (t +:+ "")). by rewrite IH.
Qed.

Lemma split_runs_join (tasks : list string) :
  Forall (λ t, plain t = true ∧ t ≠ "") tasks → tasks ≠ [] →
  split_runs comma_or_space (join ", " tasks) = tasks.
Proof.
  unfold split_runs, join. induction 1 as [|x tasks [Hx Hne] Hall IH]; [done|].
  intros _. destruct tasks as [|y tasks]; [by apply split_runs_plain|].
  change (String.concat ", " (x :: y :: tasks))
    with (x +:+ ", " +:+ String.concat ", " (y :: tasks)).
  rewrite (split_runs_app x _ "" (y :: tasks)); [by rewrite append_empty_r|done|].
  specialize (IH ltac:(done)).
  apply Forall_cons_1 in Hall as [[Hy Hyne] _].
  assert (Hhead : ∃ c J, String.concat ", " (y :: tasks) = String c J
                         ∧ comma_or_space c = false).
  { destruct y as [|c y]; [done|]. simpl in Hy.
    apply andb_true_iff in Hy as [Hc _]. apply negb_true_iff in Hc.
    destruct tasks; simpl; eauto. }
  destruct Hhead as (c & J & HJ & Hc). rewrite HJ in *.
  simpl in *. rewrite Hc in *. by rewrite IH.
Qed.

Lemma words_join (tasks : list string) :
  Forall (λ t, plain t = true ∧ t ≠ "") tasks → words (join ", " tasks) = tasks.
Proof.
  intros Hall. unfold words. destruct tasks as [|x tasks]; [done|].
  rewrite split_runs_join by done.
  induction Hall as [|t ts [Ht Hne] _ IH]; [done|].
  rewrite fmap_cons, trim_plain by done.
  rewrite filter_cons_True by (by destruct t). by rewrite IH.
Qed.

(** *** What the store does with a valid rule *)

Section Facts.
Context `{Host} `{FormHost}.

Lemma updateRule_of_nat (i : nat) (rule : Rule) (st : RulesState) :
  valid rule →
  updateRule (of_nat i) rule st = (Returned tt, mkState (<[i := rule]> (rules st))).
Proof.
  intros Hv. unfold updateRule, valid in *. rewrite Hv. cbn [negb].
  unfold set_state. do 2 f_equal. rewrite <-imap_replace_insert.
  apply imap_ext. intros j r _. cbn beta. by rewrite strict_eq_of_nat.
Qed.

Lemma handleSaveRule_valid (rule : Rule) (f : Form) (st : RulesState) :
  valid rule → handleSaveRule rule f st = (clearForm f, saved rule f st).
Proof.
  intros Hv. unfold handleSaveRule, saved, try_store.
  destruct (editingIndex f) as [e|].
  - by rewrite updateRule_of_nat.
  - by rewrite addRule_valid.
Qed.

Lemma handleSaveRule_invalid (rule : Rule) (f : Form) (st : RulesState) :
  ¬ valid rule →
  handleSaveRule rule f st
  = (setValidationErrors
       ["Invalid rule: " +:+ join ", " (Rules.errors (validateRule rule))] f, st).
Proof.
  intros Hv. unfold handleSaveRule, try_store.
  destruct (editingIndex f) as [e|].
  - unfold updateRule. unfold valid in Hv.
    by destruct (isValid (validateRule rule)).
  - by rewrite addRule_invalid.
Qed.


Lemma not_below_one (n : number) : isNaN n || lt n (of_Z 1) = false → below_one n = false.
Proof.
  intros [HNaN Hlt]%orb_false_iff. apply below_one_false.
  unfold ge. destruct n as [| |q|]; try done. simpl in *. by rewrite Hlt.
Qed.






(** X20. The precedence-override handler checks the priority only: when
    no global rule is named and the priority is accepted, the rule goes to
    the store, the store rejects it, and the form shows the store's message
    while the store is left as it was. *)
Theorem precedence_form_relies_on_store (f : Form) (st : RulesState) :
  words (globalRules f) = [] →
  isNaN (parseInt (priorityOrder f)) || lt (parseInt (priorityOrder f)) (of_Z 1) = false →
  ∃ rest,
    handleAddPrecedenceOverrideRule f st
    = (setValidationErrors
         ["Invalid rule: " +:+
          join ", " ("Precedence override rule must have global rules" :: rest)] f, st).
Proof.
  intros Hglobal Hpriority. unfold handleAddPrecedenceOverrideRule.
  rewrite Hglobal, Hpriority.
  set (rule := precedenceOverride [] (words (specificRules f)) (parseInt (priorityOrder f))).
  assert (Hv : ¬ valid rule).
  { unfold valid, validateRule, rule. cbn [isValid]. rewrite !push_if_zero. simpl.
    intros [_ [_ [? _]]]. done. }
  rewrite (handleSaveRule_invalid rule f st Hv).
  unfold rule, validateRule. cbn [Rules.errors length Nat.eqb push_if app].
  rewrite (not_below_one _ Hpriority). cbn [push_if].
  destruct (length (words (specificRules f)) =? 0); cbn [push_if app]; by eexists.
Qed.

(** X21. [handleDeleteRule] removes the rule at the index and keeps the
    edit pointer on its rule: when the rule being edited is the deleted
    one the form is cleared, otherwise [editingIndex] designates, in the
    new sequence, the rule it designated before. *)
Theorem handleDeleteRule_keeps_edited_rule (index editing : nat) (f : Form)
    (st : RulesState) :
  editingIndex f = Some editing →
  index < length (rules st) → editing < length (rules st) →
  let f' := fst (handleDeleteRule index f st) in
  let st' := snd (handleDeleteRule index f st) in
  rules st' = delete index (rules st)
  ∧ (editing = index → f' = clearForm f)
  ∧ (editing ≠ index →
     ∃ editing', editingIndex f' = Some editing'
                 ∧ rules st' !! editing' = rules st !! editing).
Proof.
  intros He Hindex Hediting. unfold handleDeleteRule, state_after.
  rewrite deleteRule_of_nat, He. cbn [snd].
  case_bool_decide as Heq.
  - subst. cbn [fst snd rules]. split; [done|]. split; [done|]. by intros [].
  - destruct (Nat.ltb_spec index editing) as [Hlt|Hge]; cbn [fst snd rules].
    + split; [done|]. split; [done|]. intros _. exists (editing - 1). split; [done|].
      rewrite list_lookup_delete_ge by lia. f_equal. lia.
    + split; [done|]. split; [done|]. intros _. exists editing. split; [done|].
      apply list_lookup_delete_lt. lia.
Qed.

Lemma valid_coRun_inv (tasks : list string) :
  valid (coRun tasks) → 2 ≤ length tasks ∧ ∀ t, t ∈ tasks → t ≠ "".
Proof.
  unfold valid, validateRule. cbn [isValid].
  rewrite !push_if_zero, existsb_false, Nat.ltb_ge.
  intros (Hall & Hlen & _). split; [done|].
  intros t Ht ->. by specialize (Hall "" Ht).
Qed.

(** X22. Pressing Edit on a valid co-run rule whose task names hold no
    comma and no white space, and then saving the form as it was filled,
    leaves the store as it was: the text the form shows for the tasks
    reads back as the same tasks. *)
Theorem edit_then_save_coRun (tasks : list string) (index : nat) (f : Form)
    (st : RulesState) :
  rules st !! index = Some (coRun tasks) →
  valid (coRun tasks) →
  Forall (λ t, plain t = true) tasks →
  handleAddCoRunRule (handleEditRule (coRun tasks) index f) st
  = (clearForm (handleEditRule (coRun tasks) index f), st).
Proof.
  intros Hlookup Hv Hplain. destruct (valid_coRun_inv tasks Hv) as [Hlen Hne].
  unfold handleAddCoRunRule. cbn [handleEditRule coRunTasks].
  rewrite words_join.
  2:{ apply Forall_forall. intros t Ht. split; [|by apply Hne].
      by apply (proj1 (Forall_forall _ _) Hplain). }
  apply Nat.ltb_ge in Hlen. rewrite Hlen.
  rewrite handleSaveRule_valid by done. f_equal.
  unfold saved. cbn [handleEditRule editingIndex setEditingIndex].
  by rewrite list_insert_id, state_eta.
Qed.

End Facts.
End FormFacts.

(** ** The form handlers at concrete inputs *)

Module FormRuns.
Import JS Rules RulesFacts RuleBuilder FormFacts.



(** The precedence form with a priority and no rule names. *)
Lemma precedence_form_relies_on_store_witness :
  let f := mkForm "precedenceOverride" "" "" "" "" "" "" "" "" "" "" "" "" "2" None [] in
  words (globalRules f) = [] ∧
  ∃ rest,
    handleAddPrecedenceOverrideRule (H := Sample.host) (H0 := SampleForm.host) f initial
    = (setValidationErrors
         ["Invalid rule: " +:+
          join ", " ("Precedence override rule must have global rules" :: rest)] f,
       initial).
Proof.
  intros f.
  assert (Hglobal : words (globalRules f) = []) by reflexivity.
  split; [exact Hglobal|].
  apply (precedence_form_relies_on_store (H := Sample.host) (H0 := SampleForm.host)
           f initial Hglobal).
  by vm_compute.
Defined.

(** Deleting the first of three rules while the third is being edited. *)
Lemma handleDeleteRule_keeps_edited_rule_witness :
  let st := mkState [coRun ["T1"; "T2"]; loadLimit "G" (of_Z 3); coRun ["T3"; "T4"]] in
  let f := setEditingIndex (Some 2) initialForm in
  editingIndex f = Some 2 ∧
  ∃ editing', editingIndex (fst (handleDeleteRule 0 f st)) = Some editing'
              ∧ rules (snd (handleDeleteRule 0 f st)) !! editing' = rules st !! 2.
Proof.
  intros st f.
  assert (He : editingIndex f = Some 2) by reflexivity.
  split; [exact He|].
  destruct (handleDeleteRule_keeps_edited_rule 0 2 f st He) as (_ & _ & Hkeep);
    [simpl; lia..|].
  apply Hkeep. discriminate.
Defined.

(** Editing the only rule of the store and saving it unchanged. *)
Lemma edit_then_save_coRun_witness :
  let tasks := ["T1"; "T2"] in
  let st := mkState [coRun tasks] in
  rules st !! 0 = Some (coRun tasks) ∧ valid (H := Sample.host) (coRun tasks) ∧
  Forall (λ t, plain t = true) tasks ∧
  handleAddCoRunRule (H := Sample.host)
    (handleEditRule (H := Sample.host) (H0 := SampleForm.host) (coRun tasks) 0 initialForm) st
  = (clearForm
       (handleEditRule (H := Sample.host) (H0 := SampleForm.host) (coRun tasks) 0 initialForm),
     st).
Proof.
  intros tasks st.
  assert (Hl : rules st !! 0 = Some (coRun tasks)) by reflexivity.
  assert (Hv : valid (H := Sample.host) (coRun tasks)) by reflexivity.
  assert (Hp : Forall (λ t, plain t = true) tasks) by (by repeat constructor).
  split; [exact Hl|]. split; [exact Hv|]. split; [exact Hp|].
  exact (edit_then_save_coRun (H := Sample.host) (H0 := SampleForm.host)
           tasks 0 initialForm st Hl Hv Hp).
Defined.

End FormRuns.

(** ** The lines [exportToCSV] writes *)

Module CsvFacts.
Import JS Validation ExportCSV.

Lemma append_nil_r (t : string) : t +:+ "" = t.
Proof.
  induction t as [|c t IH]; [done|].
  change (String c t +:+ "") with (String c (t +:+ "")). by rewrite IH.
Qed.

Lemma append_cons (c : ascii) (t s : string) : String c t +:+ s = String c (t +:+ s).
Proof. done. Qed.

Lemma append_assoc (a b c : string) : (a +:+ b) +:+ c = a +:+ (b +:+ c).
Proof.
  induction a as [|x a IH]; [done|]. by rewrite !append_cons, IH.
Qed.

Lemma read_tail (m : Mode) (tail : string) :
  field_tail tail → m = Unquoted ∨ m = QuoteSeen →
  read_fields m tail = "" :: after_field tail.
Proof.
  intros [->|[s ->]] [->| ->]; try done.
Qed.

Lemma read_unquoted (t tail : string) :
  includes comma t = false → field_tail tail →
  read_fields Unquoted (t +:+ tail) = t :: after_field tail.
Proof.
  intros Ht Htail. induction t as [|c t IH].
  - by apply read_tail; [|left].
  - simpl in Ht. apply orb_false_iff in Ht as [Hc Ht].
    rewrite append_cons. cbn [read_fields]. by rewrite Hc, (IH Ht).
Qed.

Lemma read_quoted (x tail : string) :
  field_tail tail →
  read_fields Quoted (double_quotes x +:+ String quote tail) = x :: after_field tail.
Proof.
  intros Htail. induction x as [|c x IH].
  - cbn [double_quotes]. change ("" +:+ String quote tail) with (String quote tail).
    cbn [read_fields]. rewrite bool_decide_eq_true_2 by done.
    by apply read_tail; [|right].
  - cbn [double_quotes]. case_bool_decide as Hc.
    + subst c. rewrite !append_cons. cbn [read_fields].
      rewrite !bool_decide_eq_true_2 by done. by rewrite IH.
    + rewrite append_cons. cbn [read_fields].
      rewrite bool_decide_eq_false_2 by done. by rewrite IH.
Qed.

Lemma read_cell (sv tail : string) :
  field_tail tail →
  read_fields FieldStart (csv_text sv +:+ tail) = sv :: after_field tail.
Proof.
  intros Htail. unfold csv_text.
  destruct (includes comma sv || includes quote sv || includes newline sv) eqn:Hq.
  - rewrite append_cons, append_assoc, append_cons. cbn [read_fields].
    rewrite bool_decide_eq_true_2 by done.
    change ("" +:+ tail) with tail. by apply read_quoted.
  - apply orb_false_iff in Hq as [[Hcomma Hquote]%orb_false_iff _].
    destruct sv as [|c sv].
    + destruct Htail as [->|[s ->]]; [done|].
      change ("" +:+ String comma s) with (String comma s). done.
    + simpl in Hcomma, Hquote.
      apply orb_false_iff in Hcomma as [Hc1 Hcomma].
      apply orb_false_iff in Hquote as [Hc2 _].
      rewrite append_cons. cbn [read_fields]. rewrite Hc2, Hc1.
      by rewrite read_unquoted.
Qed.

Lemma read_line (cells : list string) :
  cells ≠ [] →
  read_fields FieldStart (join "," (csv_text <$> cells)) = cells.
Proof.
  unfold join. induction cells as [|x cells IH]; [done|]. intros _.
  destruct cells as [|y cells].
  - simpl. rewrite <-(append_nil_r (csv_text x)). by rewrite read_cell; [|left].
  - change (String.concat "," (csv_text <$> x :: y :: cells))
      with (csv_text x +:+ String comma (String.concat "," (csv_text <$> y :: cells))).
    rewrite read_cell by (right; by eexists). cbn [after_field]. by rewrite IH.
Qed.

Section Facts.
Context `{Host}.

(** X23. A line [exportToCSV] writes for a row reads back, under the
    usual reading of comma-separated fields with quoted fields and doubled
    quotes, as the cell texts [String(value || '')] of the row, one per
    header; so two rows written to the same line agree on the text of
    every column.  A falsy value (0, false, null, undefined, the empty
    string) is written as the empty field. *)
Theorem csv_line_reads_back (headers : list string) (r : Row) :
  headers ≠ [] →
  read_fields FieldStart (csv_line headers r)
  = (λ header, stringValue (get r header)) <$> headers
  ∧ (∀ r', csv_line headers r = csv_line headers r' →
           ∀ header, header ∈ headers →
                     stringValue (get r header) = stringValue (get r' header))
  ∧ (∀ header, truthy (get r header) = false →
               csv_text (stringValue (get r header)) = "").
Proof.
  intros Hne.
  assert (Hread : ∀ row, read_fields FieldStart (csv_line headers row)
                         = (λ header, stringValue (get row header)) <$> headers).
  { intros row. unfold csv_line.
    transitivity (read_fields FieldStart
      (join "," (csv_text <$> ((λ header, stringValue (get row header)) <$> headers)))).
    - by rewrite <-list_fmap_compose.
    - apply read_line. by destruct headers. }
  split; [apply Hread|]. split.
  - intros r' Hsame header Hheader.
    pose proof (Hread r) as Hr. rewrite Hsame, Hread in Hr.
    apply list_elem_of_lookup in Hheader as [i Hi].
    apply (f_equal (λ l, l !! i)) in Hr. rewrite !list_lookup_fmap, Hi in Hr.
    simpl in Hr. congruence.
  - intros header Hfalsy. unfold stringValue, or_else. by rewrite Hfalsy.
Qed.

End Facts.
End CsvFacts.

(** * Runs of the line writer *)

Module CsvRuns.
Import JS Validation ExportCSV CsvFacts.

(** A name with a comma in it is written between quotes and reads back
    whole. *)
Lemma csv_line_reads_back_witness :
  let headers := ["ClientID"; "ClientName"; "GroupTag"] in
  let r : Row := {[ "ClientID" := VString "C1";
                    "ClientName" := VString "Acme, Inc" ]} in
  headers ≠ []
  ∧ csv_line (H := Sample.host) headers r
    = "C1," +:+ String quote ("Acme, Inc" +:+ String quote ",")
  ∧ read_fields FieldStart (csv_line (H := Sample.host) headers r)
    = ["C1"; "Acme, Inc"; ""].
Proof.
  intros headers r.
  assert (Hne : headers ≠ []) by done.
  split; [exact Hne|]. split; [by vm_compute|].
  destruct (csv_line_reads_back (H := Sample.host) headers r Hne) as [Hread _].
  rewrite Hread. by vm_compute.
Defined.

End CsvRuns.

(** * The page *)

Module PageFacts.
Import JS Validation Views Page ValidationFacts StoreFacts ValidatorFacts.

Lemma fix_row_none (rows : list Row) (e : ValidationError) :
  row e ≤ length rows → fix_row (Some rows) e = None ↔ row e = 0.
Proof.
  unfold fix_row. intros Hle. destruct (row e) as [|k]; [done|]. split; [|done].
  intros Hnone. apply lookup_ge_None in Hnone. lia.
Qed.

Lemma take_ten (errs : list ValidationError) :
  length (take 10 errs)
  + default 0 (if bool_decide (10 < length errs) && true then Some (length errs - 10)
               else None)
  = length errs.
Proof.
  rewrite length_take, andb_true_r.
  case_bool_decide; cbv [default from_option id]; lia.
Qed.

Lemma summary_of (open : bool) (errs : list ValidationError) (s : gmap string nat)
    (rows : list Row) :
  Forall (reported_within (length rows)) errs →
  match ValidationSummary open (Some (mkResult errs s)) (Some rows) with
  | NoErrors => errs = []
  | Listed count items more =>
      count = length errs
      ∧ (open = true → length items + default 0 more = count)
      ∧ (open = true →
         items.*1 `prefix_of` errs ∧ length items = count `min` 10
         ∧ (count ≤ 10 → more = None) ∧ (10 < count → more = Some (count - 10)))
      ∧ (open = false → items = [] ∧ more = None)
      ∧ ∀ e button, (e, button) ∈ items → e ∈ errs ∧ (button = None ↔ row e = 0)
  end.
Proof.
  intros Hall. unfold ValidationSummary. cbn [errors].
  destruct errs as [|e0 errs]; [done|]. set (es := e0 :: errs) in *.
  split; [done|]. split; [|split; [|split]].
  - intros ->. rewrite length_fmap. apply take_ten.
  - intros ->. rewrite andb_true_r. split; [|split; [|split]].
    + rewrite <-list_fmap_compose.
      replace (fst ∘ (λ e, (e, fix_row (Some rows) e)) <$> take 10 es)
        with (take 10 es) by (by rewrite <-(list_fmap_id (take 10 es)) at 1).
      apply prefix_take.
    + rewrite length_fmap, length_take. lia.
    + intros Hle. by rewrite bool_decide_eq_false_2 by lia.
    + intros Hlt. by rewrite bool_decide_eq_true_2 by lia.
  - intros ->. by rewrite andb_false_r.
  - intros e button Hin. apply list_elem_of_fmap in Hin as [e' [Heq Hin]].
    injection Heq as -> ->. apply elem_of_take in Hin as [k [Hk _]].
    assert (He : e' ∈ es) by (by eapply list_elem_of_lookup_2).
    split; [done|]. apply fix_row_none.
    rewrite Forall_forall in Hall. by destruct (Hall e' He).
Qed.

Section Facts.
Context `{Host}.

Lemma validation_Some (data : Datasets) (r : Results) :
  validation data = Some r →
  r = validateAll data
  ∧ ∃ c w t, clients data = Some c ∧ workers data = Some w ∧ tasks data = Some t
             ∧ c ≠ [] ∧ w ≠ [] ∧ t ≠ [].
Proof.
  unfold validation.
  destruct (clients data) as [c|]; [|done].
  destruct (workers data) as [w|]; [|done].
  destruct (tasks data) as [t|]; [|done].
  destruct c as [|c0 c]; [done|]. destruct w as [|w0 w]; [done|].
  destruct t as [|t0 t]; [done|].
  intros Hsome. split; [by injection Hsome|]. by exists (c0 :: c), (w0 :: w), (t0 :: t).
Qed.

(** X24. Whenever the page holds a validation result, it is [validateAll]
    of the three loaded datasets, and the summary of each dataset shows
    the number of entries; when open it lists the first ten entries (all
    of them when there are at most ten), in order, and the further line
    counts the rest exactly when there are more than ten; when closed it
    lists nothing; and it offers the Suggest Fix button on every listed
    entry except the missing-column entries of row 0: each other entry
    designates a row of the data. *)
Theorem summary_offers_fix_for_rows (data : Datasets) (r : Results) (open : bool) :
  validation data = Some r →
  r = validateAll data
  ∧ Forall
      (λ shown : ValidationResult * option (list Row),
         match ValidationSummary open (Some shown.1) shown.2 with
         | NoErrors => errors shown.1 = []
         | Listed count items more =>
             count = length (errors shown.1)
             ∧ (open = true → length items + default 0 more = count)
             ∧ (open = true →
                items.*1 `prefix_of` errors shown.1 ∧ length items = count `min` 10
                ∧ (count ≤ 10 → more = None) ∧ (10 < count → more = Some (count - 10)))
             ∧ (open = false → items = [] ∧ more = None)
             ∧ ∀ e button, (e, button) ∈ items →
                           e ∈ errors shown.1 ∧ (button = None ↔ row e = 0)
         end)
      [(clients_result r, clients data); (workers_result r, workers data);
       (tasks_result r, tasks data)].
Proof.
  intros Hsome.
  destruct (validation_Some data r Hsome)
    as [-> (c & w & t & Hc & Hw & Ht & Hcne & Hwne & Htne)].
  split; [done|].
  assert (Hg : no_length (clients data) || no_length (workers data)
               || no_length (tasks data) = false).
  { rewrite Hc, Hw, Ht. by destruct c, w, t. }
  rewrite (validateAll_run data Hg), Hc, Hw, Ht.
  cbn [default clients_result workers_result tasks_result].
  repeat apply Forall_cons_2; [| | |constructor]; cbn [fst snd].
  - apply summary_of, clientErrors_within.
  - apply summary_of, workerErrors_within.
  - apply summary_of, taskErrors_within.
Qed.

End Facts.

Lemma is_index_of_nat (k i : nat) : is_index k (VNumber (of_nat i)) = bool_decide (k = i).
Proof. apply strict_eq_of_nat. Qed.

Lemma imap_insert_row (i : nat) (f : Row → Row) (rows : list Row) (row : Row) :
  rows !! i = Some row →
  imap (λ k r, if bool_decide (k = i) then f r else r) rows = <[i := f row]> rows.
Proof.
  intros Hi. apply list_eq. intros k. rewrite list_lookup_imap.
  destruct (decide (k = i)) as [->|Hne].
  - rewrite list_lookup_insert_eq by (by eapply lookup_lt_Some).
    rewrite Hi. simpl. by rewrite bool_decide_eq_true_2.
  - rewrite list_lookup_insert_ne by done.
    destruct (rows !! k); [|done]. simpl. by rewrite bool_decide_eq_false_2.
Qed.

(** X25. With no search filter in the way and no column named [id] in
    the row, editing one cell of the row the grid shows at index [i]
    rewrites exactly row [i] of the data: the stored row takes the new
    cell and, with it, the grid's [id] key; every other row is kept. *)
Theorem handleProcessRowUpdate_edits_shown_row (rows : list Row) (i : nat) (row : Row)
    (col : string) (v : value) :
  rows !! i = Some row → row !! "id" = None → col ≠ "id" →
  ∃ shown, grid_rows rows !! i = Some shown
    ∧ handleProcessRowUpdate (<[col := v]> shown) (Some rows)
      = <[i := <[col := v]> (<["id" := VNumber (of_nat i)]> row)]> rows.
Proof.
  intros Hi Hid Hcol. exists (row ∪ {[ "id" := VNumber (of_nat i) ]}). split.
  - unfold grid_rows. by rewrite list_lookup_imap, Hi.
  - unfold handleProcessRowUpdate.
    assert (Hget : get (<[col := v]> (row ∪ {[ "id" := VNumber (of_nat i) ]})) "id"
                   = VNumber (of_nat i)).
    { unfold get. rewrite lookup_insert_ne by done.
      rewrite lookup_union_r by done. by rewrite lookup_singleton_eq. }
    rewrite Hget.
    rewrite (imap_ext _
      (λ k r, if bool_decide (k = i)
              then <[col := v]> (row ∪ {[ "id" := VNumber (of_nat i) ]}) ∪ r else r))
      by (intros k r _; by rewrite is_index_of_nat).
    rewrite (imap_insert_row i
      (λ r, <[col := v]> (row ∪ {[ "id" := VNumber (of_nat i) ]}) ∪ r) rows row Hi).
    f_equal. apply map_eq. intros key.
    destruct (decide (key = col)) as [->|Hkey].
    + rewrite lookup_insert_eq. apply lookup_union_Some_l. by rewrite lookup_insert_eq.
    + rewrite lookup_insert_ne by done.
      destruct (decide (key = "id")) as [->|Hkid].
      * rewrite lookup_insert_eq. apply lookup_union_Some_l.
        rewrite lookup_insert_ne by done. rewrite lookup_union_r by done.
        by rewrite lookup_singleton_eq.
      * rewrite lookup_insert_ne by done.
        destruct (row !! key) as [x|] eqn:Hrow.
        -- apply lookup_union_Some_l. rewrite lookup_insert_ne by done.
           by apply lookup_union_Some_l.
        -- apply lookup_union_None_2; [|done]. rewrite lookup_insert_ne by done.
           apply lookup_union_None_2; [done|]. by rewrite lookup_singleton_ne.
Qed.

End PageFacts.

(** * Runs of the page *)

Module PageRuns.
Import JS Validation Views Page PageFacts.

(** One client asking for an unknown task: the entry is listed with its
    button. *)
Lemma summary_offers_fix_for_rows_witness :
  let data :=
    mkDatasets
      (Some [ {[ "ClientID" := VString "C1"; "ClientName" := VString "Acme";
                 "PriorityLevel" := VNumber (of_Z 3);
                 "RequestedTaskIDs" := VString "T1,T9";
                 "GroupTag" := VString "GroupA";
                 "AttributesJSON" := VString "{}" ]} ])
      (Some [ {[ "WorkerID" := VString "W1"; "Skills" := VString "coding";
                 "AvailableSlots" := VString "1,2"; "MaxLoadPerPhase" := VNumber (of_Z 1);
                 "WorkerGroup" := VString "GroupA" ]} ])
      (Some [ {[ "TaskID" := VString "T1"; "Duration" := VNumber (of_Z 2);
                 "RequiredSkills" := VString "coding" ]} ]) in
  let r := validateAll (H := Sample.host) data in
  validation (H := Sample.host) data = Some r
  ∧ length (errors (clients_result r)) = 1
  ∧ match ValidationSummary true (Some (clients_result r)) (clients data) with
    | NoErrors => False
    | Listed count items more =>
        count = 1 ∧ length items = 1 ∧ more = None
        ∧ ∀ e button, (e, button) ∈ items → button = None ↔ row e = 0
    end.
Proof.
  intros data r.
  assert (Hv : validation (H := Sample.host) data = Some r) by (by vm_compute).
  split; [exact Hv|]. split; [by vm_compute|].
  destruct (summary_offers_fix_for_rows (H := Sample.host) data r true Hv) as [_ Hall].
  apply Forall_cons in Hall as [Hclients _]. cbn [fst snd] in Hclients.
  assert (Hlen : length (errors (clients_result r)) = 1) by (by vm_compute).
  destruct (ValidationSummary true (Some (clients_result r)) (clients data))
    as [|count items more].
  - rewrite Hclients in Hlen. discriminate Hlen.
  - destruct Hclients as (-> & _ & Hopen & _ & Hitems).
    destruct (Hopen eq_refl) as (_ & Hitems_len & Hmore & _).
    rewrite Hlen in Hitems_len, Hmore.
    split; [exact Hlen|]. split; [exact Hitems_len|].
    split; [apply Hmore; repeat constructor|].
    intros e button Hin. exact (proj2 (Hitems e button Hin)).
Defined.

(** Editing the name of the second of two rows. *)
Lemma handleProcessRowUpdate_edits_shown_row_witness :
  let r0 : Row := {[ "ClientID" := VString "C1"; "ClientName" := VString "Acme" ]} in
  let r1 : Row := {[ "ClientID" := VString "C2"; "ClientName" := VString "Bolt" ]} in
  let rows := [r0; r1] in
  rows !! 1 = Some r1 ∧ r1 !! "id" = None ∧ "ClientName" ≠ "id"
  ∧ ∃ shown, grid_rows rows !! 1 = Some shown
      ∧ handleProcessRowUpdate (<["ClientName" := VString "Bolts"]> shown) (Some rows)
        = [r0; <["ClientName" := VString "Bolts"]> (<["id" := VNumber (of_nat 1)]> r1)].
Proof.
  intros r0 r1 rows.
  assert (H1 : rows !! 1 = Some r1) by reflexivity.
  assert (H2 : r1 !! "id" = None) by (by vm_compute).
  assert (H3 : "ClientName" ≠ "id") by discriminate.
  split; [exact H1|]. split; [exact H2|]. split; [exact H3|].
  exact (handleProcessRowUpdate_edits_shown_row rows 1 r1 "ClientName" (VString "Bolts")
           H1 H2 H3).
Defined.

End PageRuns.
